(** * A shallow embedding of [sudoku-solver.py]

    The class [SudokuState] keeps one mutable 9x9 grid [self.state]; each
    cell is either a Python [int] (a known digit) or a Python [list] of the
    digits the cell may still take.  Methods are embedded as functions that
    pass the grid explicitly.  The recursion between [fill_in_square] and
    [analise_empty_value], the [while] loop of [solve] and the recursion of
    [solve] are driven by a fuel argument; Python exceptions are results of
    their own. *)

From stdpp Require Import base numbers list relations sorting.

Set Default Proof Using "Type".

(** ** Results: normal return, Python exception, fuel exhausted *)

Inductive exn : Type := ValueError | IndexError.

Inductive result (A : Type) : Type :=
| Ok (a : A)
| Raise (e : exn)
| OutOfFuel.
Arguments Ok {A} a.
Arguments Raise {A} e.
Arguments OutOfFuel {A}.

Global Instance result_bind : MBind result := λ A B k m,
  match m with
  | Ok a => k a
  | Raise e => Raise e
  | OutOfFuel => OutOfFuel
  end.

(** ** Cells, grids, positions *)

Abbreviation Position := (nat * nat)%type.

(** A cell of [self.state].  [Lst l] is a cell whose value has type [list].
    [Int v old] is a cell whose value has type [int]; [old] is the content of
    the list object that [fill_in_square] detached from the grid when it
    wrote [v]: dictionaries built earlier by [get_empty_neighbours] still
    hold that object, and [analise_empty_value] reads it.  For a cell that
    was an [int] from the start, [old] is [[]] and is never read. *)
Inductive Cell : Type :=
| Lst (l : list Z)
| Int (v : Z) (old : list Z).

Abbreviation Grid := (list (list Cell)).

Definition is_list (c : Cell) : bool :=
  match c with Lst _ => true | Int _ _ => false end.

(** The list object a dictionary entry for this cell refers to. *)
Definition listobj (c : Cell) : list Z :=
  match c with Lst l => l | Int _ old => old end.

Definition cell_at (st : Grid) (p : Position) : option Cell :=
  st !! p.1 ≫= λ row, row !! p.2.

(** [self.state[position[0]][position[1]]]; positions come from [range(9)],
    so on a 9x9 grid the default is never returned. *)
Definition get_value_from_pos (st : Grid) (p : Position) : Cell :=
  default (Int 0 []) (cell_at st p).

(** [self.state[position[0]][position[1]] = c] *)
Definition set_cell (st : Grid) (p : Position) (c : Cell) : Grid :=
  alter (λ row, <[p.2 := c]> row) p.1 st.

(** [itertools.product(range(9), repeat=2)], row-major. *)
Definition all_positions : list Position :=
  p ← seq 0 9; (λ c, (p, c)) <$> seq 0 9.

Definition digits : list Z := [1; 2; 3; 4; 5; 6; 7; 8; 9]%Z.
Arguments digits : simpl never.

(** ** Python list primitives *)

(** [l.remove(v)]: drops the first occurrence; [None] stands for the
    [ValueError] Python raises when [v] is absent. *)
Fixpoint py_remove (v : Z) (l : list Z) : option (list Z) :=
  match l with
  | [] => None
  | x :: l' => if decide (x = v) then Some l' else cons x <$> py_remove v l'
  end.

(** [v in l] *)
Definition py_in (v : Z) (l : list Z) : bool := bool_decide (v ∈ l).

(** [sorted(l, key=key)] / [l.sort(key=key)]: a stable sort. *)
Fixpoint insert_by {A} (key : A → nat) (x : A) (l : list A) : list A :=
  match l with
  | [] => [x]
  | y :: l' => if decide (key y < key x) then y :: insert_by key x l'
               else x :: y :: l'
  end.

Definition sort_by {A} (key : A → nat) (l : list A) : list A :=
  foldr (insert_by key) [] l.

(** ** Neighbour dictionaries *)

(** Insertion of a key into a [dict]: a key already present keeps its
    place. *)
Definition dict_add (k : Position) (keys : list Position) : list Position :=
  if decide (k ∈ keys) then keys else keys ++ [k].

Abbreviation Section3 := (bool * bool * bool)%type.

Definition neighbour_keys (p : Position) (section : Section3) : list Position :=
  let '(s0, s1, s2) := section in
  let output :=
    foldl (λ out i,
             let out := if s0 then dict_add (p.1, i) out else out in
             if s1 then dict_add (i, p.2) out else out)
          [] (seq 0 9) in
  let output :=
    if s2 then
      let top := (p.1 - p.1 `mod` 3, p.2 - p.2 `mod` 3) in
      foldl (λ out box_pos, dict_add (top.1 + box_pos.1, top.2 + box_pos.2) out)
            output
            (a ← seq 0 3; (λ b, (a, b)) <$> seq 0 3)
    else output in
  filter (λ k, k ≠ p) output.

Arguments neighbour_keys : simpl never.

Definition all_sections : Section3 := (true, true, true).

(** [get_neighbors]: the dictionary as an association list in insertion
    order, each key with the cell value at the time of the call. *)
Definition get_neighbors (st : Grid) (p : Position) (section : Section3)
  : list (Position * Cell) :=
  (λ k, (k, get_value_from_pos st k)) <$> neighbour_keys p section.

Definition get_empty_states (st : Grid) : list (Position * Cell) :=
  filter (λ kv, is_list kv.2)
         ((λ k, (k, get_value_from_pos st k)) <$> all_positions).

Definition get_empty_neighbours (st : Grid) (p : Position) (section : Section3)
  : list (Position * Cell) :=
  filter (λ kv, is_list kv.2) (get_neighbors st p section).

(** ** Construction *)

(** The inner loop of [setup] over the neighbours' values. *)
Definition setup_cell (st : Grid) (p : Position) : list Z :=
  foldl (λ possible_values kv,
           match kv.2 with
           | Int v _ =>
               if bool_decide (0 < v)%Z && py_in v possible_values
               then default possible_values (py_remove v possible_values)
               else possible_values
           | Lst _ => possible_values
           end)
        digits (get_neighbors st p all_sections).

Arguments setup_cell : simpl never.

Definition is_zero (c : Cell) : bool :=
  match c with Int v _ => bool_decide (v = 0%Z) | Lst _ => false end.

Definition setup (st : Grid) : Grid :=
  foldl (λ st p,
           if is_zero (get_value_from_pos st p)
           then set_cell st p (Lst (setup_cell st p))
           else st)
        st all_positions.

(** [SudokuState(state)]: [__init__] followed by [setup]. *)
Definition SudokuState (input : list (list Z)) : Grid :=
  setup (fmap (M:=list) (λ num, Int num []) <$> input).

(** ** Candidate removal *)

Definition remove_value (st : Grid) (p : Position) (value : Z) : result Grid :=
  match get_value_from_pos st p with
  | Lst l =>
      match py_remove value l with
      | Some l' => Ok (set_cell st p (Lst l'))
      | None => Raise ValueError
      end
  | Int _ _ => Ok st
  end.

(** ** Propagation *)

Section propagation.
(** The recursive call to [fill_in_square] with one unit of fuel less. *)
Variable fill : Grid → Position → Z → result (Z * Grid).

(** The loop of [analise_empty_value] over the values 1..9 for one
    neighbour set.  [keys] are the keys of [emtpy_neighbour_set]; the
    entry for [position] is the copy [own], the other entries alias the
    list objects of the grid.  [Some code] is an early [return code]. *)
Fixpoint analise_values (position : Position) (own : list Z)
         (keys : list Position) (values : list Z) (st : Grid)
  : result (option Z * Grid) :=
  match values with
  | [] => Ok (None, st)
  | value :: values' =>
      let counts :=
        filter (λ pos, py_in value
                         (if decide (pos = position) then own
                          else listobj (get_value_from_pos st pos)) = true)
               keys in
      match counts with
      | [pos] =>
          if is_list (get_value_from_pos st pos) then
            '(outcome, st') ← fill st pos value;
            if decide (outcome = -1)%Z then Ok (Some (-1)%Z, st')
            else analise_values position own keys values' st'
          else analise_values position own keys values' st
      | _ => analise_values position own keys values' st
      end
  end.

Fixpoint analise_sets (position : Position) (own : list Z)
         (sets : list (list Position)) (st : Grid)
  : result (option Z * Grid) :=
  match sets with
  | [] => Ok (None, st)
  | keys :: sets' =>
      '(ret, st') ← analise_values position own keys digits st;
      match ret with
      | Some code => Ok (Some code, st')
      | None => analise_sets position own sets' st'
      end
  end.

Definition unit_sections : list Section3 :=
  [(true, false, false); (false, true, false); (false, false, true)].

Definition analise_with (st : Grid) (position : Position) : result (Z * Grid) :=
  match get_value_from_pos st position with
  | Int _ _ => Ok (0%Z, st)
  | Lst current_possible_values =>
      if decide (length current_possible_values = 0) then Ok ((-1)%Z, st)
      else
        let emtpy_neighbour_sets :=
          (λ section, (get_empty_neighbours st position section).*1 ++ [position])
            <$> unit_sections in
        '(ret, st') ← analise_sets position current_possible_values
                                   emtpy_neighbour_sets st;
        match ret with
        | Some code => Ok (code, st')
        | None => Ok (0%Z, st')
        end
  end.

(** First loop of [fill_in_square]: remove [value] from the empty
    neighbours.  The values of [empty_neighbours] alias the lists of the
    grid, so they are read from the current grid. *)
Fixpoint removal_pass (value : Z) (keys : list Position) (st : Grid)
         (reduced_positions : list Position)
  : result (option Z * Grid * list Position) :=
  match keys with
  | [] => Ok (None, st, reduced_positions)
  | neighbour_position :: keys' =>
      let l := listobj (get_value_from_pos st neighbour_position) in
      if py_in value l then
        st' ← remove_value st neighbour_position value;
        removal_pass value keys' st' (reduced_positions ++ [neighbour_position])
      else if decide (l = []) then Ok (Some (-1)%Z, st, reduced_positions)
      else removal_pass value keys' st reduced_positions
  end.

(** Second loop of [fill_in_square], over [reduced_positions]. *)
Fixpoint check_reduced (reduced_positions : list Position) (st : Grid)
  : result (Z * Grid) :=
  match reduced_positions with
  | [] => Ok (0%Z, st)
  | reduced_position :: rest =>
      '(outcome, st1) ← analise_with st reduced_position;
      if decide (outcome = -1)%Z then Ok ((-1)%Z, st1)
      else
        match get_value_from_pos st1 reduced_position with
        | Int _ _ => check_reduced rest st1
        | Lst l =>
            match l with
            | [] => Ok ((-1)%Z, st1)
            | [first] =>
                '(recursive_result, st2) ← fill st1 reduced_position first;
                if decide (recursive_result = -1)%Z then Ok ((-1)%Z, st2)
                else check_reduced rest st2
            | _ => check_reduced rest st1
            end
        end
  end.

Definition fill_in_square_with (st : Grid) (position : Position) (value : Z)
  : result (Z * Grid) :=
  let empty_neighbours := (get_empty_neighbours st position all_sections).*1 in
  match get_value_from_pos st position with
  | Int _ _ => Ok ((-2)%Z, st)
  | Lst old =>
      let st := set_cell st position (Int value old) in
      '(ret, st, reduced_positions) ← removal_pass value empty_neighbours st [];
      match ret with
      | Some code => Ok (code, st)
      | None => check_reduced reduced_positions st
      end
  end.
End propagation.

Fixpoint fill_in_square (fuel : nat) (st : Grid) (position : Position) (value : Z)
  : result (Z * Grid) :=
  match fuel with
  | 0 => OutOfFuel
  | S fuel' => fill_in_square_with (fill_in_square fuel') st position value
  end.

Definition analise_empty_value (fuel : nat) (st : Grid) (position : Position)
  : result (Z * Grid) :=
  analise_with (fill_in_square fuel) st position.

Arguments analise_with : simpl never.
Arguments analise_empty_value : simpl never.
Arguments fill_in_square_with : simpl never.

(** ** [narrow] *)

Definition get_sets (st : Grid) (position : Position)
  : list (list (Position * Cell)) :=
  (λ section, get_neighbors st position section
                ++ [(position, get_value_from_pos st position)])
    <$> unit_sections.

(** [value in neighbour_set.values()]: an [int] never equals a [list]. *)
Definition value_filled (value : Z) (neighbour_set : list (Position * Cell)) : bool :=
  existsb (λ kv, match kv.2 with
                 | Int v _ => bool_decide (value = v)
                 | Lst _ => false
                 end) neighbour_set.

Definition value_possible (value : Z) (neighbour_set : list (Position * Cell)) : bool :=
  existsb (λ kv, match kv.2 with
                 | Lst l => py_in value l
                 | Int _ _ => false
                 end) neighbour_set.

Definition sanity_positions : list Position :=
  [(0, 0); (1, 3); (2, 6); (3, 1); (4, 4); (5, 7); (6, 2); (7, 5); (8, 8)].

(** The first loop of [narrow]; [false] is its [return -1]. *)
Definition sanity_pass (st : Grid) : bool :=
  forallb (λ position,
     forallb (λ neighbour_set,
        forallb (λ value,
           value_filled value neighbour_set || value_possible value neighbour_set)
          digits)
       (get_sets st position))
    sanity_positions.

Section narrow.
Variable fill : Grid → Position → Z → result (Z * Grid).

(** The sweep of [narrow] over the keys of [emtpy_squares]. *)
Fixpoint narrow_sweep (keys : list Position) (st : Grid) : result (Z * Grid) :=
  match keys with
  | [] => Ok (0%Z, st)
  | empty_pos :: keys' =>
      match get_value_from_pos st empty_pos with
      | Int _ _ => narrow_sweep keys' st
      | Lst [first] =>
          '(outcome, st') ← fill st empty_pos first;
          if decide (outcome = -1)%Z then Ok ((-1)%Z, st')
          else narrow_sweep keys' st'
      | Lst [] => Ok ((-1)%Z, st)
      | Lst _ => narrow_sweep keys' st
      end
  end.
End narrow.

Definition narrow (fuel : nat) (st : Grid) : result (Z * Grid) :=
  if negb (sanity_pass st) then Ok ((-1)%Z, st)
  else
    let emtpy_squares := get_empty_states st in
    if decide (length emtpy_squares = 0) then Ok (1%Z, st)
    else narrow_sweep (fill_in_square fuel) emtpy_squares.*1 st.

(** ** [check], [is_solved] *)

Definition check (st : Grid) : Z :=
  if existsb (λ position,
       match get_value_from_pos st position with
       | Int value _ => value_filled value (get_neighbors st position all_sections)
       | Lst _ => false
       end) all_positions
  then (-1)%Z else 0%Z.

Definition is_solved (st : Grid) : Z :=
  if existsb (λ position, is_list (get_value_from_pos st position)) all_positions
  then 0%Z else 1%Z.

(** ** [least_constraining_value] *)

(** [{v: 0 for v in values}] *)
Definition constraints_init (values : list Z) : list (Z * nat) :=
  foldl (λ d v, if bool_decide (v ∈ d.*1) then d else d ++ [(v, 0)]) [] values.

(** [constraints[value] += 1] *)
Definition constraints_incr (value : Z) (d : list (Z * nat)) : list (Z * nat) :=
  (λ kv, if decide (kv.1 = value) then (kv.1, S kv.2) else kv) <$> d.

Definition constraints_of (st : Grid) (position : Position) : list (Z * nat) :=
  let values := listobj (get_value_from_pos st position) in
  let empty_neighbours := get_empty_neighbours st position all_sections in
  foldl (λ constraints kv,
           foldl (λ constraints value,
                    if py_in value (listobj kv.2)
                    then constraints_incr value constraints
                    else constraints)
                 constraints values)
        (constraints_init values) empty_neighbours.

Definition least_constraining_value (st : Grid) (position : Position) : result Z :=
  match sort_by snd (constraints_of st position) with
  | [] => Raise IndexError
  | c :: _ => Ok c.1
  end.

Arguments least_constraining_value : simpl never.
Arguments narrow : simpl never.

(** ** [solve] *)

(** [sorted(list(self.get_empty_states().items()), key=lambda x: len(x[1]))[0][0]] *)
Definition square_to_edit_of (st : Grid) : result Position :=
  match sort_by (λ kv, length (listobj kv.2)) (get_empty_states st) with
  | [] => Raise IndexError
  | kv :: _ => Ok kv.1
  end.

Section solve.
Variable fuel : nat.
(** The recursive call to [solve]. *)
Variable solve_rec : Grid → result (Z * Grid).

(** The [while] loop of [solve]; [k] bounds its iterations.  [Some code]
    is a [return code] from inside the loop, [None] the exit through the
    loop condition. *)
Fixpoint guess_loop (k : nat) (square_to_edit : Position)
         (state_copy st : Grid) : result (option Z * Grid) :=
  match k with
  | 0 => OutOfFuel
  | S k' =>
      match get_value_from_pos st square_to_edit with
      | Lst (_ :: _) =>
          guess_of_value ← least_constraining_value st square_to_edit;
          '(outcome_of_guess, st1) ←
            fill_in_square fuel st square_to_edit guess_of_value;
          '(outcome_of_guess, st1) ←
            (if decide (outcome_of_guess = 0)%Z then solve_rec st1
             else Ok (outcome_of_guess, st1));
          if decide (outcome_of_guess = 1)%Z then Ok (Some 1%Z, st1)
          else if decide (outcome_of_guess = -1)%Z then
            st2 ← remove_value state_copy square_to_edit guess_of_value;
            '(outcome_of_analysis, st3) ←
              analise_empty_value fuel st2 square_to_edit;
            if decide (outcome_of_analysis = -1)%Z then Ok (Some (-1)%Z, st3)
            else guess_loop k' square_to_edit st3 st3
          else guess_loop k' square_to_edit state_copy st1
      | _ => Ok (None, st)
      end
  end.

Definition solve_with (st : Grid) : result (Z * Grid) :=
  '(outcome, st) ← narrow fuel st;
  if decide (outcome ≠ 0%Z) then Ok (outcome, st)
  else if decide (is_solved st = 1%Z) then Ok (1%Z, st)
  else
    square_to_edit ← square_to_edit_of st;
    '(ret, st) ← guess_loop fuel square_to_edit st st;
    match ret with
    | Some code => Ok (code, st)
    | None =>
        match get_value_from_pos st square_to_edit with
        | Lst _ => Ok ((-1)%Z, st)
        | Int _ _ => solve_rec st
        end
    end.
End solve.

Fixpoint solve (fuel : nat) (st : Grid) : result (Z * Grid) :=
  match fuel with
  | 0 => OutOfFuel
  | S fuel' => solve_with fuel (solve fuel') st
  end.

(** ** Output *)

(** An element of the returned array. *)
Inductive npval : Type :=
| NpInt (v : Z)
| NpList (l : list Z).

(** [get_numpy_state]: the array holds the cells of [self.state]. *)
Definition get_numpy_state (st : Grid) : list (list npval) :=
  fmap (M:=list) (λ c, match c with Int v _ => NpInt v | Lst l => NpList l end) <$> st.

Definition np_set (a : list (list npval)) (p : Position) (x : npval)
  : list (list npval) :=
  alter (λ row, <[p.2 := x]> row) p.1 a.

Definition np_get (a : list (list npval)) (p : Position) : npval :=
  default (NpInt 0) (a !! p.1 ≫= λ row, row !! p.2).

Definition get_numpy_proper_state (st : Grid) (solvable : Z) : list (list npval) :=
  foldl (λ numpy_state position,
           if decide (solvable = 0%Z) then
             match np_get numpy_state position with
             | NpList _ => np_set numpy_state position (NpInt 0)
             | NpInt _ => numpy_state
             end
           else if decide (solvable = -1)%Z then
             np_set numpy_state position (NpInt (-1))
           else numpy_state)
        (get_numpy_state st) all_positions.

Definition get_solved_numpy (fuel : nat) (st : Grid) : result (list (list npval)) :=
  let is_already_unsolvable := check st in
  if decide (is_already_unsolvable = -1)%Z then Ok (get_numpy_proper_state st (-1))
  else
    '(outcome, st') ← solve fuel st;
    Ok (get_numpy_proper_state st' outcome).

Definition sudoku_solver (fuel : nat) (sudoku_puzzle : list (list Z))
  : result (list (list npval)) :=
  get_solved_numpy fuel (SudokuState sudoku_puzzle).

(** * Properties *)

(** ** Reading and writing cells *)

Lemma cell_at_set_cell_eq (st : Grid) p c :
  is_Some (cell_at st p) → cell_at (set_cell st p c) p = Some c.
Proof.
  unfold cell_at, set_cell. intros [x Hx].
  rewrite list_lookup_alter_eq.
  destruct (st !! p.1) as [row|] eqn:Hrow; simpl in *; [|done].
  apply list_lookup_insert_eq. by eapply lookup_lt_Some.
Qed.

Lemma cell_at_set_cell_ne (st : Grid) p q c :
  p ≠ q → cell_at (set_cell st p c) q = cell_at st q.
Proof.
  unfold cell_at, set_cell. intros Hne.
  destruct (decide (p.1 = q.1)) as [Heq|Hr].
  - rewrite <- Heq, list_lookup_alter_eq.
    destruct (st !! p.1) as [row|]; simpl; [|done].
    apply list_lookup_insert_ne. intros H2. apply Hne.
    destruct p, q; simpl in *; congruence.
  - by rewrite list_lookup_alter_ne.
Qed.

Lemma get_value_Lst (st : Grid) p l :
  get_value_from_pos st p = Lst l ↔ cell_at st p = Some (Lst l).
Proof.
  unfold get_value_from_pos. destruct (cell_at st p); simpl; split; congruence.
Qed.



(** ** The two primitive mutations of [self.state] after construction *)

(** Every write to the grid made by [fill_in_square], [remove_value] and
    their callers is one of: a list cell overwritten by a digit; one digit
    removed from a list cell. *)
Inductive mutation : Grid → Grid → Prop :=
| mutation_fill st p l v :
    cell_at st p = Some (Lst l) →
    mutation st (set_cell st p (Int v l))
| mutation_remove st p l v l' :
    cell_at st p = Some (Lst l) →
    py_remove v l = Some l' →
    mutation st (set_cell st p (Lst l')).

Definition evolves : Grid → Grid → Prop := rtc mutation.

Lemma evolves_refl st : evolves st st.
Proof. apply rtc_refl. Qed.

Lemma evolves_trans st1 st2 st3 :
  evolves st1 st2 → evolves st2 st3 → evolves st1 st3.
Proof. apply rtc_trans. Qed.

Lemma evolves_fill st p l v :
  get_value_from_pos st p = Lst l → evolves st (set_cell st p (Int v l)).
Proof. intros H. apply rtc_once. constructor. by apply get_value_Lst. Qed.

Lemma remove_value_evolves st p v st' :
  remove_value st p v = Ok st' → evolves st st'.
Proof.
  unfold remove_value. destruct (get_value_from_pos st p) as [l|] eqn:Hp.
  - destruct (py_remove v l) as [l'|] eqn:Hr; [|done].
    intros [= <-]. apply rtc_once. econstructor; [by apply get_value_Lst|done].
  - intros [= <-]. apply evolves_refl.
Qed.

(** Inversion of a monadic bind that returned normally. *)
Lemma bind_Ok {A B} (m : result A) (k : A → result B) b :
  m ≫= k = Ok b → ∃ a, m = Ok a ∧ k a = Ok b.
Proof. destruct m; simpl; [eauto|done..]. Qed.

Ltac inv_bind H :=
  let a := fresh "a" in
  let Ha := fresh "Ha" in
  apply bind_Ok in H as (a & Ha & H).

Lemma analise_sets_cons fill position own keys sets st :
  analise_sets fill position own (keys :: sets) st
  = '(ret, st') ← analise_values fill position own keys digits st;
    match ret with
    | Some code => Ok (Some code, st')
    | None => analise_sets fill position own sets st'
    end.
Proof. reflexivity. Qed.

Section propagation_evolves.
Variable fill : Grid → Position → Z → result (Z * Grid).
Hypothesis fill_evolves :
  ∀ st p v r st', fill st p v = Ok (r, st') → evolves st st'.

Lemma analise_values_evolves position own keys values st ret st' :
  analise_values fill position own keys values st = Ok (ret, st') →
  evolves st st'.
Proof using fill_evolves.
  revert st. induction values as [|value values IH]; intros st; simpl.
  - intros [= <- <-]. apply evolves_refl.
  - destruct (filter _ keys) as [|pos [|]]; [by apply IH| |by apply IH].
    destruct (is_list _); [|by apply IH].
    intros H. inv_bind H. destruct a as [outcome st1].
    apply fill_evolves in Ha.
    destruct (decide _).
    + injection H as <- <-. done.
    + eapply evolves_trans; [done|]. by apply IH.
Qed.

Lemma analise_sets_evolves position own sets st ret st' :
  analise_sets fill position own sets st = Ok (ret, st') →
  evolves st st'.
Proof using fill_evolves.
  revert st. induction sets as [|keys sets IH]; intros st.
  - intros [= <- <-]. apply evolves_refl.
  - rewrite analise_sets_cons. intros H. inv_bind H. destruct a as [r1 st1].
    apply analise_values_evolves in Ha.
    destruct r1.
    + injection H as <- <-. done.
    + eapply evolves_trans; [done|]. by apply IH.
Qed.

Lemma analise_with_evolves st position r st' :
  analise_with fill st position = Ok (r, st') → evolves st st'.
Proof using fill_evolves.
  unfold analise_with. destruct (get_value_from_pos st position).
  - destruct (decide _).
    + intros [= <- <-]. apply evolves_refl.
    + intros H. inv_bind H. destruct a as [r1 st1].
      apply analise_sets_evolves in Ha.
      destruct r1; injection H as <- <-; done.
  - intros [= <- <-]. apply evolves_refl.
Qed.

Lemma removal_pass_evolves value keys st reduced ret st' reduced' :
  removal_pass value keys st reduced = Ok (ret, st', reduced') →
  evolves st st'.
Proof.
  revert st reduced. induction keys as [|k keys IH]; intros st reduced; simpl.
  - intros [= <- <- <-]. apply evolves_refl.
  - destruct (py_in _ _).
    + intros H. inv_bind H. apply remove_value_evolves in Ha.
      eapply evolves_trans; [done|]. by eapply IH.
    + destruct (decide _).
      * intros [= <- <- <-]. apply evolves_refl.
      * by apply IH.
Qed.

Lemma check_reduced_evolves reduced st r st' :
  check_reduced fill reduced st = Ok (r, st') → evolves st st'.
Proof using fill_evolves.
  revert st. induction reduced as [|rp rest IH]; intros st; simpl.
  - intros [= <- <-]. apply evolves_refl.
  - intros H. inv_bind H. destruct a as [outcome st1].
    apply analise_with_evolves in Ha.
    destruct (decide _).
    { injection H as <- <-. done. }
    eapply evolves_trans; [done|].
    destruct (get_value_from_pos st1 rp) as [[|first [|]]|].
    + injection H as <- <-. apply evolves_refl.
    + inv_bind H. destruct a as [rr st2]. apply fill_evolves in Ha0.
      destruct (decide _).
      * injection H as <- <-. done.
      * eapply evolves_trans; [done|]. by apply IH.
    + by apply IH.
    + by apply IH.
Qed.

Lemma fill_in_square_with_evolves st position value r st' :
  fill_in_square_with fill st position value = Ok (r, st') → evolves st st'.
Proof using fill_evolves.
  unfold fill_in_square_with.
  destruct (get_value_from_pos st position) as [old|] eqn:Hp.
  - intros H. inv_bind H. destruct a as [[ret st1] reduced].
    apply removal_pass_evolves in Ha.
    eapply evolves_trans; [by apply evolves_fill|].
    eapply evolves_trans; [done|].
    destruct ret.
    + injection H as <- <-. apply evolves_refl.
    + by eapply check_reduced_evolves.
  - intros [= <- <-]. apply evolves_refl.
Qed.
End propagation_evolves.

Lemma fill_in_square_evolves fuel st p v r st' :
  fill_in_square fuel st p v = Ok (r, st') → evolves st st'.
Proof.
  revert st p v r st'. induction fuel as [|fuel IH]; intros st p v r st'; simpl.
  - done.
  - by apply fill_in_square_with_evolves.
Qed.

Lemma analise_empty_value_evolves fuel st p r st' :
  analise_empty_value fuel st p = Ok (r, st') → evolves st st'.
Proof. apply analise_with_evolves, fill_in_square_evolves. Qed.

(** ** What every mutation preserves *)

(** The shape the caller guarantees: 9 rows of 9 cells. *)
Definition wf_grid {A} (st : list (list A)) : Prop :=
  length st = 9 ∧ Forall (λ row, length row = 9) st.

(** A candidate list as [setup] builds it and removals leave it: strictly
    increasing digits between 1 and 9. *)
Definition ascending_digits (l : list Z) : Prop :=
  StronglySorted Z.lt l ∧ Forall (λ x, 1 ≤ x ≤ 9)%Z l.

Definition cands_ok (st : Grid) : Prop :=
  ∀ p l, cell_at st p = Some (Lst l) → ascending_digits l.

Lemma py_in_true v l : py_in v l = true ↔ v ∈ l.
Proof. unfold py_in. apply bool_decide_eq_true. Qed.

Lemma py_remove_sublist v l l' : py_remove v l = Some l' → l' `sublist_of` l.
Proof.
  revert l'. induction l as [|x l IH]; intros l'; simpl; [done|].
  destruct (decide (x = v)).
  - intros [= <-]. by apply sublist_cons.
  - destruct (py_remove v l) as [l0|]; simpl; [|done].
    intros [= <-]. apply sublist_skip. by apply IH.
Qed.

Lemma py_remove_Some v l : v ∈ l → is_Some (py_remove v l).
Proof.
  induction l as [|x l IH]; simpl.
  - by intros ?%elem_of_nil.
  - intros [->|Hin]%elem_of_cons.
    + rewrite decide_True by done. eauto.
    + destruct (decide (x = v)); [eauto|].
      destruct (IH Hin) as [l' ->]. simpl. eauto.
Qed.


Lemma ascending_digits_sublist l l' :
  l' `sublist_of` l → ascending_digits l → ascending_digits l'.
Proof.
  intros Hsub [Hs Hr]. split.
  - clear Hr. induction Hsub as [|x l1 l2 Hsub IH|x l1 l2 Hsub IH].
    + constructor.
    + apply StronglySorted_inv in Hs as [Hs Hx]. constructor; [by apply IH|].
      eapply Forall_forall. intros y Hy. eapply Forall_forall in Hx; [done|].
      by eapply elem_of_sublist.
    + apply StronglySorted_inv in Hs as [Hs _]. by apply IH.
  - apply Forall_forall. intros x Hx. eapply Forall_forall in Hr; [done|].
    by eapply elem_of_sublist.
Qed.

Lemma ascending_digits_digits : ascending_digits digits.
Proof.
  split.
  - unfold digits. repeat (constructor; [|repeat (constructor; [lia|])]; try done).
    constructor.
  - unfold digits. repeat (constructor; [lia|]). constructor.
Qed.

Lemma set_cell_wf (st : Grid) p c : wf_grid st → wf_grid (set_cell st p c).
Proof.
  intros [H1 H2]. split.
  - unfold set_cell. by rewrite length_alter.
  - unfold set_cell. apply Forall_alter; [done|].
    intros row _ Hrow. by rewrite length_insert.
Qed.

Lemma mutation_wf st st' : mutation st st' → wf_grid st → wf_grid st'.
Proof. destruct 1; apply set_cell_wf. Qed.

Lemma evolves_wf st st' : evolves st st' → wf_grid st → wf_grid st'.
Proof. induction 1; eauto using mutation_wf. Qed.

Lemma mutation_Int st st' p v o :
  mutation st st' → cell_at st p = Some (Int v o) → cell_at st' p = Some (Int v o).
Proof.
  intros Hm Hp. destruct Hm as [st q l w Hq|st q l w l' Hq Hr].
  - destruct (decide (q = p)) as [->|Hne]; [congruence|].
    by rewrite cell_at_set_cell_ne.
  - destruct (decide (q = p)) as [->|Hne]; [congruence|].
    by rewrite cell_at_set_cell_ne.
Qed.

(** A cell that holds a digit keeps it. *)
Lemma evolves_Int st st' p v o :
  evolves st st' → cell_at st p = Some (Int v o) → cell_at st' p = Some (Int v o).
Proof. induction 1; eauto using mutation_Int. Qed.

Lemma mutation_cands_ok st st' : mutation st st' → cands_ok st → cands_ok st'.
Proof.
  intros Hm Hok p l Hp. destruct Hm as [st q l0 w Hq|st q l0 w l' Hq Hr].
  - destruct (decide (q = p)) as [->|Hne].
    + rewrite cell_at_set_cell_eq in Hp by eauto. done.
    + rewrite cell_at_set_cell_ne in Hp by done. eauto.
  - destruct (decide (q = p)) as [->|Hne].
    + rewrite cell_at_set_cell_eq in Hp by eauto. injection Hp as <-.
      eapply ascending_digits_sublist; [by eapply py_remove_sublist|eauto].
    + rewrite cell_at_set_cell_ne in Hp by done. eauto.
Qed.

Lemma evolves_cands_ok st st' : evolves st st' → cands_ok st → cands_ok st'.
Proof. induction 1; eauto using mutation_cands_ok. Qed.

(** ** [narrow] and [solve] only mutate through the two primitives *)

Lemma narrow_sweep_evolves fill keys st r st' :
  (∀ st p v r st', fill st p v = Ok (r, st') → evolves st st') →
  narrow_sweep fill keys st = Ok (r, st') → evolves st st'.
Proof.
  intros Hfill. revert st. induction keys as [|k keys IH]; intros st; simpl.
  - intros [= <- <-]. apply evolves_refl.
  - destruct (get_value_from_pos st k) as [[|first [|]]|].
    + intros [= <- <-]. apply evolves_refl.
    + intros H. inv_bind H. destruct a as [outcome st1]. apply Hfill in Ha.
      destruct (decide _).
      * injection H as <- <-. done.
      * eapply evolves_trans; [done|]. by apply IH.
    + apply IH.
    + apply IH.
Qed.

Lemma narrow_evolves fuel st r st' :
  narrow fuel st = Ok (r, st') → evolves st st'.
Proof.
  unfold narrow. destruct (negb _).
  - intros [= <- <-]. apply evolves_refl.
  - destruct (decide _).
    + intros [= <- <-]. apply evolves_refl.
    + apply narrow_sweep_evolves, fill_in_square_evolves.
Qed.

Section solve_evolves.
Variable fuel : nat.
Variable solve_rec : Grid → result (Z * Grid).
Hypothesis solve_rec_evolves :
  ∀ st r st', solve_rec st = Ok (r, st') → evolves st st'.

Lemma guess_loop_evolves k square_to_edit st0 state_copy st ret st' :
  evolves st0 state_copy → evolves st0 st →
  guess_loop fuel solve_rec k square_to_edit state_copy st = Ok (ret, st') →
  evolves st0 st'.
Proof using solve_rec_evolves.
  revert state_copy st. induction k as [|k IH]; intros state_copy st Hc Hs;
    cbn [guess_loop].
  - done.
  - destruct (get_value_from_pos st square_to_edit) as [[|x l]|].
    { by intros [= <- <-]. }
    2:{ by intros [= <- <-]. }
    intros H. inv_bind H. rename a into guess.
    inv_bind H. destruct a as [o1 st1]. apply fill_in_square_evolves in Ha0.
    inv_bind H. destruct a as [o2 st2].
    assert (evolves st0 st2) as Hst2.
    { eapply evolves_trans; [exact Hs|]. eapply evolves_trans; [exact Ha0|].
      revert Ha1. destruct (decide (o1 = 0)%Z); intros Ha1.
      - by eapply solve_rec_evolves.
      - injection Ha1 as <- <-. apply evolves_refl. }
    simpl in H.
    destruct (decide (o2 = 1)%Z).
    { injection H as <- <-. done. }
    destruct (decide (o2 = -1)%Z).
    + inv_bind H. rename a into st3. apply remove_value_evolves in Ha2.
      inv_bind H. destruct a as [oa st4]. simpl in H.
      apply analise_empty_value_evolves in Ha3.
      assert (evolves st0 st4) as Hst4.
      { eapply evolves_trans; [exact Hc|].
        eapply evolves_trans; [exact Ha2|exact Ha3]. }
      destruct (decide (oa = -1)%Z).
      * injection H as <- <-. done.
      * eapply (IH st4 st4); [exact Hst4|exact Hst4|exact H].
    + eapply (IH state_copy st2); [exact Hc|exact Hst2|exact H].
Qed.

Lemma solve_with_evolves st r st' :
  solve_with fuel solve_rec st = Ok (r, st') → evolves st st'.
Proof using solve_rec_evolves.
  unfold solve_with. intros H. inv_bind H. destruct a as [outcome st1].
  apply narrow_evolves in Ha.
  destruct (decide _).
  { injection H as <- <-. done. }
  destruct (decide _).
  { injection H as <- <-. done. }
  inv_bind H. rename a into sq. inv_bind H. destruct a as [ret st2].
  eapply guess_loop_evolves in Ha1; [|apply evolves_refl..].
  assert (evolves st st2) by by eapply evolves_trans.
  destruct ret.
  { injection H as <- <-. done. }
  destruct (get_value_from_pos st2 sq).
  - injection H as <- <-. done.
  - eapply evolves_trans; [done|]. by eapply solve_rec_evolves.
Qed.
End solve_evolves.

Lemma solve_evolves fuel st r st' :
  solve fuel st = Ok (r, st') → evolves st st'.
Proof.
  revert st r st'. induction fuel as [|fuel IH]; intros st r st'; simpl.
  - done.
  - by apply solve_with_evolves.
Qed.

(** ** Construction *)

Definition input_at (input : list (list Z)) (p : Position) : option Z :=
  input !! p.1 ≫= λ row, row !! p.2.

Lemma cell_at_init input p :
  cell_at (fmap (M:=list) (λ num, Int num []) <$> input) p
  = (λ num, Int num []) <$> input_at input p.
Proof.
  unfold cell_at, input_at. rewrite list_lookup_fmap.
  destruct (input !! p.1) as [row|]; simpl; [|done].
  by rewrite list_lookup_fmap.
Qed.

Lemma wf_init input :
  wf_grid input → wf_grid (fmap (M:=list) (λ num, Int num []) <$> input).
Proof.
  intros [H1 H2]. split.
  - by rewrite length_fmap.
  - apply Forall_fmap. eapply Forall_impl; [done|].
    intros row Hrow. simpl. by rewrite length_fmap.
Qed.

Lemma setup_cell_ascending st p : ascending_digits (setup_cell st p).
Proof.
  unfold setup_cell. generalize (get_neighbors st p all_sections).
  generalize ascending_digits_digits. generalize digits.
  intros acc Hacc l. revert acc Hacc.
  induction l as [|kv l IH]; intros acc Hacc; simpl; [done|].
  apply IH. destruct (kv.2) as [|v old]; [done|].
  destruct (bool_decide (0 < v)%Z && py_in v acc); [|done].
  destruct (py_remove v acc) as [acc'|] eqn:Hr; simpl; [|done].
  eapply ascending_digits_sublist; [by eapply py_remove_sublist|done].
Qed.

Lemma is_zero_true c : is_zero c = true → ∃ o, c = Int 0 o.
Proof.
  destruct c as [|v o]; simpl; [done|].
  intros ->%bool_decide_eq_true. eauto.
Qed.

Section setup_props.
Variable st0 : Grid.

(** What the loop of [setup] maintains, relative to the grid it
    started from. *)
Record setup_inv (st : Grid) : Prop := {
  setup_inv_wf : wf_grid st0 → wf_grid st;
  setup_inv_nonzero :
    ∀ p v o, cell_at st0 p = Some (Int v o) → v ≠ 0%Z →
             cell_at st p = Some (Int v o);
  setup_inv_cands : cands_ok st0 → cands_ok st;
}.

Lemma setup_inv_loop ps st :
  setup_inv st →
  setup_inv (foldl (λ st p,
                      if is_zero (get_value_from_pos st p)
                      then set_cell st p (Lst (setup_cell st p))
                      else st) st ps).
Proof.
  revert st. induction ps as [|q ps IH]; intros st Hinv; simpl; [done|].
  apply IH. destruct (is_zero (get_value_from_pos st q)) eqn:Hz; [|done].
  apply is_zero_true in Hz as [o Hq].
  assert (cell_at st q = Some (Int 0 o) ∨ cell_at st q = None) as Hcq.
  { unfold get_value_from_pos in Hq.
    destruct (cell_at st q); simpl in Hq; [left; congruence|by right]. }
  destruct Hinv as [Hwf Hnz Hc]. split.
  - intros H. by apply set_cell_wf, Hwf.
  - intros p v o' Hp Hv. destruct (decide (q = p)) as [->|Hne].
    + specialize (Hnz _ _ _ Hp Hv). destruct Hcq; congruence.
    + rewrite cell_at_set_cell_ne by done. eauto.
  - intros H0 p l Hp. destruct (decide (q = p)) as [->|Hne].
    + destruct Hcq as [Hcq|Hcq].
      * rewrite cell_at_set_cell_eq in Hp by eauto.
        assert (setup_cell st p = l) as <- by congruence.
        apply setup_cell_ascending.
      * unfold cell_at, set_cell in *.
        destruct (st !! p.1) as [row|] eqn:Hrow; simpl in *.
        -- rewrite list_lookup_alter_eq, Hrow in Hp. simpl in Hp.
           rewrite list_insert_ge in Hp; [congruence|].
           by apply lookup_ge_None.
        -- rewrite list_lookup_alter_eq, Hrow in Hp. done.
    + rewrite cell_at_set_cell_ne in Hp by done. by eapply Hc.
Qed.

Lemma setup_inv_setup : setup_inv (setup st0).
Proof. apply setup_inv_loop. by split. Qed.
End setup_props.

Lemma SudokuState_wf input : wf_grid input → wf_grid (SudokuState input).
Proof. intros H. apply setup_inv_setup, wf_init, H. Qed.

Lemma SudokuState_nonzero input p v :
  input_at input p = Some v → v ≠ 0%Z →
  cell_at (SudokuState input) p = Some (Int v []).
Proof.
  intros Hp Hv. apply setup_inv_setup; [|done].
  by rewrite cell_at_init, Hp.
Qed.

Lemma SudokuState_cands_ok input : cands_ok (SudokuState input).
Proof.
  apply setup_inv_setup. intros p l. rewrite cell_at_init.
  by destruct (input_at input p).
Qed.

(** ** The returned array *)

Definition all_minus_one : list (list npval) :=
  replicate 9 (replicate 9 (NpInt (-1))).

(** What the caller observes of the outcome of [get_solved_numpy]. *)
Definition reports_solved (fuel : nat) (input : list (list Z)) : Prop :=
  check (SudokuState input) ≠ (-1)%Z ∧
  ∃ st', solve fuel (SudokuState input) = Ok (1%Z, st').


Ltac destruct_len9 l :=
  do 9 (destruct l as [|? l]; [by simplify_eq/=|]);
  destruct l; [|by simplify_eq/=].

Lemma get_numpy_proper_state_unsolvable st :
  wf_grid st → get_numpy_proper_state st (-1) = all_minus_one.
Proof.
  intros [Hlen Hrows].
  destruct_len9 st.
  repeat match goal with
         | H : Forall _ (_ :: _) |- _ => apply Forall_cons in H as [? H]
         end.
  repeat match goal with
         | H : length ?l = 9 |- _ => destruct_len9 l; clear H
         end.
  reflexivity.
Qed.

Lemma get_numpy_proper_state_solved st solvable :
  solvable ≠ 0%Z → solvable ≠ (-1)%Z →
  get_numpy_proper_state st solvable = get_numpy_state st.
Proof.
  intros H0 H1. unfold get_numpy_proper_state.
  generalize (get_numpy_state st). induction all_positions as [|p ps IH]; intros a.
  - done.
  - simpl. rewrite decide_False by done. rewrite decide_False by done. apply IH.
Qed.

Definition np_at (a : list (list npval)) (p : Position) : option npval :=
  a !! p.1 ≫= λ row, row !! p.2.

Lemma np_at_get_numpy_state st p :
  np_at (get_numpy_state st) p
  = (λ c, match c with Int v _ => NpInt v | Lst l => NpList l end) <$> cell_at st p.
Proof.
  unfold np_at, get_numpy_state, cell_at. rewrite list_lookup_fmap.
  destruct (st !! p.1) as [row|]; simpl; [|done].
  by rewrite list_lookup_fmap.
Qed.

(** ** Example grids *)

Definition ex_puzzle : list (list Z) :=
  [[5;3;0;0;7;0;0;0;0];
   [6;0;0;1;9;5;0;0;0];
   [0;9;8;0;0;0;0;6;0];
   [8;0;0;0;6;0;0;0;3];
   [4;0;0;8;0;3;0;0;1];
   [7;0;0;0;2;0;0;0;6];
   [0;6;0;0;0;0;2;8;0];
   [0;0;0;4;1;9;0;0;5];
   [0;0;0;0;8;0;0;7;9]]%Z.


Lemma wf_grid_dec_true {A} (g : list (list A)) :
  length g = 9 → forallb (λ row, bool_decide (length row = 9)) g = true → wf_grid g.
Proof.
  intros H1 H2. split; [done|]. apply Forall_forall. intros row Hrow.
  rewrite forallb_forall in H2. apply list_elem_of_In in Hrow.
  specialize (H2 _ Hrow). by apply bool_decide_eq_true in H2.
Qed.

Lemma ex_puzzle_wf : wf_grid ex_puzzle.
Proof. by apply wf_grid_dec_true. Qed.


(** ** C2, C3 *)



(** C3: when the solver reports Solved, every nonzero cell of the input
    holds the same digit in the returned array; and no operation
    (candidate removal, [fill_in_square], [analise_empty_value], [narrow],
    [solve]) changes a cell that holds a digit. *)
Theorem solved_output_keeps_input fuel input :
  wf_grid input → reports_solved fuel input →
  (∃ out, sudoku_solver fuel input = Ok out ∧
          ∀ p v, input_at input p = Some v → v ≠ 0%Z →
                 np_at out p = Some (NpInt v)) ∧
  (∀ (st st' : Grid) p v o, cell_at st p = Some (Int v o) →
     (∀ q d, remove_value st q d = Ok st' → cell_at st' p = Some (Int v o)) ∧
     (∀ n q d r, fill_in_square n st q d = Ok (r, st') →
                 cell_at st' p = Some (Int v o)) ∧
     (∀ n q r, analise_empty_value n st q = Ok (r, st') →
               cell_at st' p = Some (Int v o)) ∧
     (∀ n r, narrow n st = Ok (r, st') → cell_at st' p = Some (Int v o)) ∧
     (∀ n r, solve n st = Ok (r, st') → cell_at st' p = Some (Int v o))).
Proof.
  intros Hwf [Hc [st' Hs]]. split.
  - exists (get_numpy_state st'). split.
    + unfold sudoku_solver, get_solved_numpy. rewrite decide_False by done.
      rewrite Hs. simpl. by rewrite get_numpy_proper_state_solved.
    + intros p v Hp Hv. rewrite np_at_get_numpy_state.
      erewrite evolves_Int; [done|by eapply solve_evolves|].
      by apply SudokuState_nonzero.
  - intros st st1 p v o Hp. repeat split; intros.
    + eapply evolves_Int; [by eapply remove_value_evolves|done].
    + eapply evolves_Int; [by eapply fill_in_square_evolves|done].
    + eapply evolves_Int; [by eapply analise_empty_value_evolves|done].
    + eapply evolves_Int; [by eapply narrow_evolves|done].
    + eapply evolves_Int; [by eapply solve_evolves|done].
Qed.

Lemma solved_output_keeps_input_witness :
  ∃ out, sudoku_solver 100 ex_puzzle = Ok out ∧
         np_at out (0, 1) = Some (NpInt 3).
Proof.
  destruct (solved_output_keeps_input 100 ex_puzzle) as [[out [Ho Hk]] _].
  - exact ex_puzzle_wf.
  - split; [by vm_compute|]. eexists. vm_compute. reflexivity.
  - exists out. split; [exact Ho|]. apply Hk; [reflexivity|done].
Defined.

(** ** C9: candidate lists stay ascending *)

(** The grids the object can hold: the constructed one, and any grid
    obtained by a method call or by the assignment of [fill_in_square].
    (The restore in [solve] puts back a copy of an earlier grid.) *)
Inductive reachable (input : list (list Z)) : Grid → Prop :=
| reach_init : reachable input (SudokuState input)
| reach_remove st p v st' :
    reachable input st → remove_value st p v = Ok st' → reachable input st'
| reach_assign st p l v :
    reachable input st → get_value_from_pos st p = Lst l →
    reachable input (set_cell st p (Int v l))
| reach_fill st n p v r st' :
    reachable input st → fill_in_square n st p v = Ok (r, st') →
    reachable input st'
| reach_analise st n p r st' :
    reachable input st → analise_empty_value n st p = Ok (r, st') →
    reachable input st'
| reach_narrow st n r st' :
    reachable input st → narrow n st = Ok (r, st') → reachable input st'
| reach_solve st n r st' :
    reachable input st → solve n st = Ok (r, st') → reachable input st'.

Lemma reachable_evolves input st :
  reachable input st → evolves (SudokuState input) st.
Proof.
  induction 1.
  - apply evolves_refl.
  - eapply evolves_trans; [done|]. by eapply remove_value_evolves.
  - eapply evolves_trans; [done|]. by eapply evolves_fill.
  - eapply evolves_trans; [done|]. by eapply fill_in_square_evolves.
  - eapply evolves_trans; [done|]. by eapply analise_empty_value_evolves.
  - eapply evolves_trans; [done|]. by eapply narrow_evolves.
  - eapply evolves_trans; [done|]. by eapply solve_evolves.
Qed.

(** C9: in every reachable grid, every candidate list is a strictly
    increasing sequence of digits between 1 and 9. *)
Theorem reachable_candidates_ascending input st p l :
  reachable input st → cell_at st p = Some (Lst l) →
  StronglySorted Z.lt l ∧ Forall (λ x, 1 ≤ x ≤ 9)%Z l.
Proof.
  intros Hr Hp. eapply evolves_cands_ok; [by eapply reachable_evolves| |done].
  apply SudokuState_cands_ok.
Qed.

Lemma reachable_candidates_ascending_witness :
  StronglySorted Z.lt [1; 2; 4]%Z ∧ Forall (λ x, 1 ≤ x ≤ 9)%Z [1; 2; 4]%Z.
Proof.
  apply (reachable_candidates_ascending ex_puzzle (SudokuState ex_puzzle) (0, 2)).
  - apply reach_init.
  - vm_compute. reflexivity.
Defined.

(** ** C5: [remove_value] on an absent digit *)




(** ** C6: [fill_in_square] on a cell that already holds a digit *)




(** ** C7: the sanity pass of [narrow] *)

(** The three units of a position, stated directly. *)
Definition row_of (p : Position) : list Position := (λ c, (p.1, c)) <$> seq 0 9.
Definition col_of (p : Position) : list Position := (λ r, (r, p.2)) <$> seq 0 9.
Definition box_index (p : Position) : nat := 3 * (p.1 `div` 3) + p.2 `div` 3.
Definition box_of (p : Position) : list Position :=
  filter (λ q, box_index q = box_index p) all_positions.
Definition units_of (p : Position) : list (list Position) :=
  [row_of p; col_of p; box_of p].

(** Digit [d] is neither fixed in a cell of [unit] nor a candidate of one. *)
Definition digit_absent (st : Grid) (unit : list Position) (d : Z) : Prop :=
  ∀ q, q ∈ unit →
       match get_value_from_pos st q with
       | Int v _ => v ≠ d
       | Lst l => d ∉ l
       end.

(** The same, as a check that can be run. *)
Definition digit_absentb (st : Grid) (unit : list Position) (d : Z) : bool :=
  forallb (λ q, match get_value_from_pos st q with
                | Int v _ => negb (bool_decide (v = d))
                | Lst l => negb (py_in d l)
                end) unit.

Lemma digit_absentb_true st unit d :
  digit_absentb st unit d = true → digit_absent st unit d.
Proof.
  unfold digit_absentb. rewrite forallb_forall. intros H q Hq.
  specialize (H q (proj1 (list_elem_of_In _ _) Hq)).
  destruct (get_value_from_pos st q).
  - apply negb_true_iff in H. intros Hin%py_in_true. congruence.
  - apply negb_true_iff, bool_decide_eq_false in H. done.
Qed.

Lemma absent_not_filled_nor_possible st keys d :
  digit_absent st keys d →
  value_filled d ((λ k, (k, get_value_from_pos st k)) <$> keys)
  || value_possible d ((λ k, (k, get_value_from_pos st k)) <$> keys) = false.
Proof.
  intros Habs. apply orb_false_intro.
  - unfold value_filled. apply not_true_is_false. intros H.
    apply existsb_exists in H as [kv [Hin Hkv]].
    apply list_elem_of_In, list_elem_of_fmap in Hin as [k [-> Hk]]. simpl in Hkv.
    specialize (Habs _ Hk). destruct (get_value_from_pos st k); [done|].
    apply bool_decide_eq_true in Hkv. congruence.
  - unfold value_possible. apply not_true_is_false. intros H.
    apply existsb_exists in H as [kv [Hin Hkv]].
    apply list_elem_of_In, list_elem_of_fmap in Hin as [k [-> Hk]]. simpl in Hkv.
    specialize (Habs _ Hk). destruct (get_value_from_pos st k); [|done].
    apply bool_decide_eq_true in Hkv. done.
Qed.

Lemma get_sets_keys st position :
  get_sets st position
  = (λ section, (λ k, (k, get_value_from_pos st k))
                  <$> (neighbour_keys position section ++ [position]))
      <$> unit_sections.
Proof.
  unfold get_sets, get_neighbors. apply list_fmap_ext.
  intros i section _. by rewrite fmap_app.
Qed.

(** The dictionaries built by [get_sets] at the nine positions hold, for
    each section, the cells of the corresponding unit. *)
Definition units_keys_check : bool :=
  forallb (λ position,
     forallb (λ i,
        match unit_sections !! i, units_of position !! i with
        | Some section, Some unit =>
            forallb (λ q, bool_decide (q ∈ unit))
                    (neighbour_keys position section ++ [position])
        | _, _ => true
        end) [0; 1; 2])
    sanity_positions.

Lemma sanity_units_keys position i section unit :
  position ∈ sanity_positions →
  unit_sections !! i = Some section →
  units_of position !! i = Some unit →
  ∀ q, q ∈ neighbour_keys position section ++ [position] → q ∈ unit.
Proof.
  intros Hin Hs Hu q Hq.
  assert (units_keys_check = true) as Hc by (vm_compute; reflexivity).
  unfold units_keys_check in Hc. rewrite forallb_forall in Hc.
  specialize (Hc position (proj1 (list_elem_of_In _ _) Hin)).
  rewrite forallb_forall in Hc.
  assert (In i [0; 1; 2]) as Hi.
  { apply lookup_lt_Some in Hs. unfold unit_sections in Hs. simpl in *. lia. }
  specialize (Hc i Hi). rewrite Hs, Hu in Hc. rewrite forallb_forall in Hc.
  specialize (Hc q (proj1 (list_elem_of_In _ _) Hq)).
  by apply bool_decide_eq_true in Hc.
Qed.

Lemma sanity_pass_absent st position unit d :
  position ∈ sanity_positions → unit ∈ units_of position → d ∈ digits →
  digit_absent st unit d → sanity_pass st = false.
Proof.
  intros Hpos Hunit Hd Habs. apply not_true_is_false. intros Hs.
  unfold sanity_pass in Hs. rewrite forallb_forall in Hs.
  specialize (Hs position (proj1 (list_elem_of_In _ _) Hpos)).
  rewrite forallb_forall in Hs.
  apply list_elem_of_lookup in Hunit as [i Hi].
  assert (is_Some (unit_sections !! i)) as [section Hsec].
  { apply lookup_lt_is_Some. apply lookup_lt_Some in Hi.
    unfold units_of, unit_sections in *. simpl in *. lia. }
  pose (neighbour_set := (λ k, (k, get_value_from_pos st k))
                           <$> (neighbour_keys position section ++ [position])).
  assert (In neighbour_set (get_sets st position)) as Hin.
  { apply list_elem_of_In. rewrite get_sets_keys.
    apply list_elem_of_fmap. exists section. split; [done|].
    by eapply list_elem_of_lookup_2. }
  specialize (Hs _ Hin). rewrite forallb_forall in Hs.
  specialize (Hs d (proj1 (list_elem_of_In _ _) Hd)).
  unfold neighbour_set in Hs.
  rewrite absent_not_filled_nor_possible in Hs; [done|].
  intros q Hq. apply Habs. by eapply sanity_units_keys.
Qed.

(** C7: the nine positions of the sanity pass hit every row, every column
    and every box exactly once, and [narrow] returns -1 whenever some digit
    is neither fixed nor a candidate anywhere in the row, the column or the
    box of one of them. *)
Theorem narrow_sanity_pass :
  (∀ i, i < 9 →
        length (filter (λ p, p.1 = i) sanity_positions) = 1 ∧
        length (filter (λ p, p.2 = i) sanity_positions) = 1 ∧
        length (filter (λ p, box_index p = i) sanity_positions) = 1) ∧
  (∀ fuel st position unit d,
     position ∈ sanity_positions → unit ∈ units_of position → d ∈ digits →
     digit_absent st unit d →
     narrow fuel st = Ok ((-1)%Z, st)).
Proof.
  split.
  - intros i Hi.
    do 9 (destruct i as [|i]; [by vm_compute|]). lia.
  - intros fuel st position unit d Hpos Hunit Hd Habs.
    unfold narrow. by erewrite sanity_pass_absent.
Qed.

(** A grid whose first row has no place left for the digit 1: every empty
    cell of the row sees a 1 in its column. *)
Definition ex_no_one : list (list Z) :=
  [[0;0;0;2;3;4;5;6;7];
   [1;0;0;0;0;0;0;0;0];
   [0;0;0;0;0;0;0;0;0];
   [0;1;0;0;0;0;0;0;0];
   [0;0;0;0;0;0;0;0;0];
   [0;0;0;0;0;0;0;0;0];
   [0;0;1;0;0;0;0;0;0];
   [0;0;0;0;0;0;0;0;0];
   [0;0;0;0;0;0;0;0;0]]%Z.

Lemma narrow_sanity_pass_witness :
  narrow 0 (SudokuState ex_no_one) = Ok ((-1)%Z, SudokuState ex_no_one).
Proof.
  destruct narrow_sanity_pass as [_ H].
  apply (H 0 (SudokuState ex_no_one) (0, 0) (row_of (0, 0)) 1%Z).
  - apply list_elem_of_In. simpl. auto.
  - apply list_elem_of_In. simpl. auto.
  - apply list_elem_of_In. simpl. auto.
  - apply digit_absentb_true. vm_compute. reflexivity.
Defined.

(** ** Propagation raises no exception *)


(** The guard [value in empty_neighbours[...]] protects [remove_value]. *)
Lemma remove_value_guarded st p v :
  py_in v (listobj (get_value_from_pos st p)) = true →
  ∃ st', remove_value st p v = Ok st'.
Proof.
  intros H. unfold remove_value. destruct (get_value_from_pos st p) as [l|]; [|eauto].
  simpl in H. apply py_in_true, py_remove_Some in H as [l' ->]. eauto.
Qed.

Section propagation_no_raise.
Variable fill : Grid → Position → Z → result (Z * Grid).
Hypothesis fill_no_raise : ∀ st p v e, fill st p v ≠ Raise e.






End propagation_no_raise.



(** ** Return codes *)

Lemma removal_pass_code value keys st reduced ret st' reduced' :
  removal_pass value keys st reduced = Ok (ret, st', reduced') →
  ret = None ∨ ret = Some (-1)%Z.
Proof.
  revert st reduced. induction keys as [|k keys IH]; intros st reduced; simpl.
  - intros [= <- <- <-]. by left.
  - destruct (py_in _ _).
    + intros H. inv_bind H. by eapply IH.
    + destruct (decide _); [intros [= <- <- <-]; by right|]. apply IH.
Qed.

Lemma check_reduced_code fill reduced st r st' :
  check_reduced fill reduced st = Ok (r, st') → r = 0%Z ∨ r = (-1)%Z.
Proof.
  revert st. induction reduced as [|rp rest IH]; intros st; simpl.
  - intros [= <- <-]. by left.
  - intros H. inv_bind H. destruct a as [o st1]. simpl in H.
    destruct (decide (o = -1)%Z); [injection H as <- <-; by right|].
    destruct (get_value_from_pos st1 rp) as [[|first [|]]|];
      [injection H as <- <-; by right| |by eapply IH..].
    inv_bind H. destruct a as [rr st2]. simpl in H.
    destruct (decide (rr = -1)%Z); [injection H as <- <-; by right|]. by eapply IH.
Qed.

(** On a list cell [fill_in_square] returns 0 or -1. *)
Lemma fill_in_square_code fuel st p v l r st' :
  get_value_from_pos st p = Lst l →
  fill_in_square fuel st p v = Ok (r, st') → r = 0%Z ∨ r = (-1)%Z.
Proof.
  intros Hp. destruct fuel as [|fuel]; simpl; [done|].
  unfold fill_in_square_with. rewrite Hp.
  intros H. inv_bind H. destruct a as [[ret st1] reduced]. simpl in H.
  apply removal_pass_code in Ha as [->| ->].
  - by eapply check_reduced_code.
  - injection H as <- <-. by right.
Qed.

Lemma narrow_sweep_code fill keys st r st' :
  narrow_sweep fill keys st = Ok (r, st') → r = 0%Z ∨ r = (-1)%Z.
Proof.
  revert st. induction keys as [|k keys IH]; intros st; simpl.
  - intros [= <- <-]. by left.
  - destruct (get_value_from_pos st k) as [[|first [|]]|];
      [intros [= <- <-]; by right| |by apply IH..].
    intros H. inv_bind H. destruct a as [o st1]. simpl in H.
    destruct (decide (o = -1)%Z); [injection H as <- <-; by right|]. by eapply IH.
Qed.

Lemma narrow_code fuel st r st' :
  narrow fuel st = Ok (r, st') → r = 0%Z ∨ r = 1%Z ∨ r = (-1)%Z.
Proof.
  unfold narrow. destruct (negb _); [intros [= <- <-]; auto|].
  destruct (decide _); [intros [= <- <-]; auto|].
  intros [->| ->]%narrow_sweep_code; auto.
Qed.

(** ** The stable sort and [least_constraining_value] *)

Lemma insert_by_elem {A} (key : A → nat) x l y :
  y ∈ insert_by key x l ↔ y = x ∨ y ∈ l.
Proof.
  induction l as [|z l IH]; simpl.
  - rewrite list_elem_of_singleton, elem_of_nil. tauto.
  - destruct (decide (key z < key x)).
    + rewrite !elem_of_cons, IH. tauto.
    + rewrite !elem_of_cons. tauto.
Qed.

Lemma sort_by_elem {A} (key : A → nat) l y : y ∈ sort_by key l ↔ y ∈ l.
Proof.
  induction l as [|x l IH]; simpl; [done|].
  rewrite insert_by_elem, elem_of_cons, IH. tauto.
Qed.

(** The head of a stable sort is the first element with the least key. *)
Lemma sort_by_head {A} (key : A → nat) l h t :
  sort_by key l = h :: t →
  ∃ l1 l2, l = l1 ++ h :: l2 ∧
           (∀ x, x ∈ l1 → key h < key x) ∧ (∀ x, x ∈ l2 → key h ≤ key x).
Proof.
  revert h t. induction l as [|x l IH]; intros h t; simpl; [done|].
  destruct (sort_by key l) as [|y t'] eqn:Hs.
  - simpl. intros [= <- <-]. exists [], l. split; [done|].
    assert (l = []) as ->.
    { destruct l as [|z l]; [done|].
      assert (z ∈ sort_by key (z :: l)) as Hz by (apply sort_by_elem; left).
      rewrite Hs in Hz. by apply elem_of_nil in Hz. }
    split; intros z Hz; by apply elem_of_nil in Hz.
  - destruct (IH y t' eq_refl) as (l1 & l2 & -> & H1 & H2).
    simpl. destruct (decide (key y < key x)).
    + intros [= <- <-]. exists (x :: l1), l2. split; [done|]. split; [|done].
      intros z [->|Hz]%elem_of_cons; [done|]. by apply H1.
    + intros [= <- <-]. exists [], (l1 ++ y :: l2). split; [done|].
      split; [intros z Hz; by apply elem_of_nil in Hz|].
      intros z [Hz|[->|Hz]%elem_of_cons]%elem_of_app.
      * specialize (H1 _ Hz). lia.
      * lia.
      * specialize (H2 _ Hz). lia.
Qed.






(** ** [narrow] and [solve]: exceptions and return codes *)




Section solve_codes.
Variable fuel : nat.
Variable solve_rec : Grid → result (Z * Grid).
Hypothesis solve_rec_code :
  ∀ st r st', solve_rec st = Ok (r, st') → r = 1%Z ∨ r = (-1)%Z.


Lemma guess_loop_code k sq state_copy st ret st' :
  guess_loop fuel solve_rec k sq state_copy st = Ok (ret, st') →
  ret = None ∨ ret = Some 1%Z ∨ ret = Some (-1)%Z.
Proof using solve_rec_code.
  revert state_copy st. induction k as [|k IH]; intros state_copy st;
    cbn [guess_loop]; [done|].
  destruct (get_value_from_pos st sq) as [[|x l]|] eqn:Hp;
    [intros [= <- <-]; by left| |intros [= <- <-]; by left].
  intros H. inv_bind H. rename a into guess.
  inv_bind H. destruct a as [o1 st1]. simpl in H.
  inv_bind H. destruct a as [o2 st2]. simpl in H.
  destruct (decide (o2 = 1)%Z); [injection H as <- <-; auto|].
  destruct (decide (o2 = -1)%Z); [|by eapply IH].
  inv_bind H. rename a into st3. inv_bind H. destruct a as [oa st4]. simpl in H.
  destruct (decide (oa = -1)%Z); [injection H as <- <-; auto|]. by eapply IH.
Qed.

Lemma solve_with_code st r st' :
  solve_with fuel solve_rec st = Ok (r, st') → r = 1%Z ∨ r = (-1)%Z.
Proof using solve_rec_code.
  unfold solve_with. intros H. inv_bind H. destruct a as [outcome st1].
  simpl in H. apply narrow_code in Ha.
  destruct (decide (outcome ≠ 0%Z)).
  { injection H as <- <-. destruct Ha as [?|[?|?]]; [done|auto..]. }
  destruct (decide _); [injection H as <- <-; auto|].
  inv_bind H. rename a into sq. inv_bind H. destruct a as [ret st2]. simpl in H.
  apply guess_loop_code in Ha1.
  destruct ret as [code|].
  { injection H as <- <-. destruct Ha1 as [?|[?|?]]; simplify_eq; auto. }
  destruct (get_value_from_pos st2 sq); [injection H as <- <-; auto|].
  by eapply solve_rec_code.
Qed.

Hypothesis solve_rec_no_value_error : ∀ st, solve_rec st ≠ Raise ValueError.


End solve_codes.

(** [solve] returns 1 or -1. *)
Lemma solve_code fuel st r st' :
  solve fuel st = Ok (r, st') → r = 1%Z ∨ r = (-1)%Z.
Proof.
  revert st r st'. induction fuel as [|fuel IH]; intros st r st'; simpl; [done|].
  by apply solve_with_code.
Qed.


(** ** C10: the removal after a failed guess *)



(** ** C8: the order of the guesses *)

(** The number of empty neighbours of [position] that list [d]. *)
Definition candidate_count (st : Grid) (position : Position) (d : Z) : nat :=
  length (filter (λ kv, d ∈ listobj kv.2)
                 (get_empty_neighbours st position all_sections)).

Lemma StronglySorted_lt_NoDup (l : list Z) : StronglySorted Z.lt l → NoDup l.
Proof.
  induction 1 as [|x l Hs IH Hx]; constructor; [|done].
  intros Hin. eapply Forall_forall in Hx; [|done]. lia.
Qed.

Lemma constraints_init_NoDup values :
  NoDup values → constraints_init values = (λ v, (v, 0)) <$> values.
Proof.
  unfold constraints_init.
  assert (∀ acc : list (Z * nat),
            NoDup (acc.*1 ++ values) →
            foldl (λ d v, if bool_decide (v ∈ d.*1) then d else d ++ [(v, 0)])
                  acc values
            = acc ++ ((λ v, (v, 0)) <$> values)) as H.
  { induction values as [|v values IH]; intros acc Hnd; simpl.
    - by rewrite app_nil_r.
    - pose proof Hnd as Hnd'. apply NoDup_app in Hnd' as (_ & Hdis & _).
      rewrite bool_decide_eq_false_2.
      + rewrite IH; [by rewrite <- app_assoc|].
        rewrite fmap_app, <- app_assoc. done.
      + intros Hv. apply (Hdis _ Hv). left. }
  intros Hnd. by rewrite H.
Qed.

Lemma constraints_incr_fmap value (c : Z → nat) values :
  constraints_incr value ((λ v, (v, c v)) <$> values)
  = (λ v, (v, c v + (if decide (v = value) then 1 else 0))) <$> values.
Proof.
  unfold constraints_incr. rewrite <- list_fmap_compose.
  apply list_fmap_ext. intros i v _. simpl.
  destruct (decide (v = value)); f_equal; lia.
Qed.

(** The inner loop over [values] for one neighbour list [nl]. *)
Lemma constraints_inner nl vs (c : Z → nat) values :
  NoDup vs →
  foldl (λ constraints value,
           if py_in value nl then constraints_incr value constraints
           else constraints)
        ((λ v, (v, c v)) <$> values) vs
  = (λ v, (v, c v + (if decide (v ∈ vs ∧ v ∈ nl) then 1 else 0))) <$> values.
Proof.
  revert c. induction vs as [|x vs IH]; intros c Hnd; cbn [foldl].
  - apply list_fmap_ext. intros i v _. cbv beta.
    rewrite decide_False; [f_equal; lia|]. intros [Hv _]. by apply elem_of_nil in Hv.
  - apply NoDup_cons in Hnd as [Hx Hnd].
    destruct (py_in x nl) eqn:Hin.
    + rewrite constraints_incr_fmap, IH by done.
      apply list_fmap_ext. intros i v _. cbv beta. f_equal.
      apply py_in_true in Hin.
      destruct (decide (v = x)) as [->|Hne].
      * rewrite decide_False by tauto. rewrite decide_True; [lia|].
        split; [left|done].
      * destruct (decide (v ∈ vs ∧ v ∈ nl)) as [[H1 H2]|Hn].
        -- rewrite decide_True; [lia|]. split; [by right|done].
        -- rewrite decide_False; [lia|].
           intros [[?|?]%elem_of_cons ?]; tauto.
    + rewrite IH by done.
      apply list_fmap_ext. intros i v _. cbv beta. f_equal. f_equal.
      assert (x ∉ nl) as Hxn.
      { intros H. apply py_in_true in H. congruence. }
      destruct (decide (v ∈ vs ∧ v ∈ nl)) as [[H1 H2]|Hn].
      * rewrite decide_True; [done|]. split; [by right|done].
      * rewrite decide_False; [done|].
        intros [[->|?]%elem_of_cons ?]; tauto.
Qed.

(** With distinct candidates, the dictionary [constraints] maps every
    candidate to its [candidate_count], in the order of the list. *)
Lemma constraints_of_NoDup st position values :
  get_value_from_pos st position = Lst values → NoDup values →
  constraints_of st position
  = (λ v, (v, candidate_count st position v)) <$> values.
Proof.
  intros Hp Hnd. unfold constraints_of, candidate_count. rewrite Hp.
  cbn [listobj].
  rewrite constraints_init_NoDup by done.
  assert (∀ (ns : list (Position * Cell)) (c : Z → nat),
    foldl (λ constraints kv,
             foldl (λ constraints value,
                      if py_in value (listobj kv.2)
                      then constraints_incr value constraints
                      else constraints)
                   constraints values)
          ((λ v, (v, c v)) <$> values) ns
    = (λ v, (v, c v + length (filter (λ kv, v ∈ listobj kv.2) ns)))
        <$> values) as H.
  { induction ns as [|kv ns IH]; intros c; cbn [foldl].
    - apply list_fmap_ext. intros i v _. cbv beta. f_equal.
      rewrite filter_nil. simpl. lia.
    - rewrite constraints_inner by done. rewrite IH.
      apply list_fmap_ext. intros i v Hv. cbv beta. f_equal.
      apply list_elem_of_lookup_2 in Hv. rewrite filter_cons.
      destruct (decide (v ∈ listobj kv.2)).
      + rewrite decide_True by done. rewrite length_cons. lia.
      + rewrite decide_False by tauto. lia. }
  rewrite (H _ (λ _, 0)).
  apply list_fmap_ext. intros i v _. cbv beta. f_equal.
Qed.

Lemma least_constraining_value_min st position values :
  get_value_from_pos st position = Lst values →
  values ≠ [] → StronglySorted Z.lt values →
  ∃ d, least_constraining_value st position = Ok d ∧ d ∈ values ∧
       (∀ d', d' ∈ values →
              candidate_count st position d ≤ candidate_count st position d' ∧
              (candidate_count st position d' = candidate_count st position d →
               (d ≤ d')%Z)).
Proof.
  intros Hp Hne Hs.
  pose proof (StronglySorted_lt_NoDup _ Hs) as Hnd.
  pose proof (constraints_of_NoDup _ _ _ Hp Hnd) as Hc.
  unfold least_constraining_value. rewrite Hc. clear Hc Hp.
  generalize (candidate_count st position). intros cnt.
  destruct (sort_by snd ((λ v, (v, cnt v)) <$> values)) as [|h t] eqn:Hsort.
  { destruct values as [|x l]; [done|].
    assert ((x, cnt x) ∈ sort_by snd ((λ v, (v, cnt v)) <$> (x :: l))) as Hin.
    { apply sort_by_elem. rewrite fmap_cons. left. }
    rewrite Hsort in Hin. by apply elem_of_nil in Hin. }
  destruct (sort_by_head _ _ _ _ Hsort) as (l1 & l2 & Hl & H1 & H2).
  apply fmap_app_inv in Hl as (v1 & v2' & -> & Hl2 & ->).
  symmetry in Hl2. apply fmap_cons_inv in Hl2 as (d & v2 & -> & -> & ->).
  exists d. split; [done|]. split.
  { apply elem_of_app. right. left. }
  intros d' [Hd'|[->|Hd']%elem_of_cons]%elem_of_app.
  - assert ((d', cnt d') ∈ (λ v, (v, cnt v)) <$> v1) as Hin.
    { apply list_elem_of_fmap. eauto. }
    specialize (H1 _ Hin). cbn [snd] in H1. split; lia.
  - split; [lia|]. intros _. lia.
  - assert ((d', cnt d') ∈ (λ v, (v, cnt v)) <$> v2) as Hin.
    { apply list_elem_of_fmap. eauto. }
    specialize (H2 _ Hin). cbn [snd] in H2. split; [lia|].
    intros _. apply StronglySorted_app_1_r in Hs.
    apply StronglySorted_inv in Hs as [_ Hlt].
    eapply Forall_forall in Hlt; [|done]. lia.
Qed.

(** One iteration of the loop of [solve], once the guess is known. *)
Lemma guess_loop_iteration fuel solve_rec k position state_copy st x l d :
  get_value_from_pos st position = Lst (x :: l) →
  least_constraining_value st position = Ok d →
  guess_loop fuel solve_rec (S k) position state_copy st
  = '(outcome_of_guess, st1) ← fill_in_square fuel st position d;
    '(outcome_of_guess, st1) ←
      (if decide (outcome_of_guess = 0)%Z then solve_rec st1
       else Ok (outcome_of_guess, st1));
    if decide (outcome_of_guess = 1)%Z then Ok (Some 1%Z, st1)
    else if decide (outcome_of_guess = -1)%Z then
      st2 ← remove_value state_copy position d;
      '(outcome_of_analysis, st3) ← analise_empty_value fuel st2 position;
      if decide (outcome_of_analysis = -1)%Z then Ok (Some (-1)%Z, st3)
      else guess_loop fuel solve_rec k position st3 st3
    else guess_loop fuel solve_rec k position state_copy st1.
Proof.
  intros Hp Hd. cbn [guess_loop]. rewrite Hp, Hd. reflexivity.
Qed.

(** C8: on every iteration of the loop of [solve], the digit tried is
    computed from the current list of the chosen cell; among its
    candidates it has the least number of empty neighbours listing it,
    and among those with that least number it is the smallest digit (the
    list being strictly increasing). *)
Theorem least_constraining_value_order st position values :
  get_value_from_pos st position = Lst values →
  values ≠ [] → StronglySorted Z.lt values →
  ∃ d, least_constraining_value st position = Ok d ∧ d ∈ values ∧
       (∀ d', d' ∈ values →
              candidate_count st position d ≤ candidate_count st position d' ∧
              (candidate_count st position d' = candidate_count st position d →
               (d ≤ d')%Z)) ∧
       (∀ fuel solve_rec k state_copy,
          guess_loop fuel solve_rec (S k) position state_copy st
          = '(outcome_of_guess, st1) ← fill_in_square fuel st position d;
            '(outcome_of_guess, st1) ←
              (if decide (outcome_of_guess = 0)%Z then solve_rec st1
               else Ok (outcome_of_guess, st1));
            if decide (outcome_of_guess = 1)%Z then Ok (Some 1%Z, st1)
            else if decide (outcome_of_guess = -1)%Z then
              st2 ← remove_value state_copy position d;
              '(outcome_of_analysis, st3) ←
                analise_empty_value fuel st2 position;
              if decide (outcome_of_analysis = -1)%Z then Ok (Some (-1)%Z, st3)
              else guess_loop fuel solve_rec k position st3 st3
            else guess_loop fuel solve_rec k position state_copy st1).
Proof.
  intros Hp Hne Hs.
  destruct (least_constraining_value_min _ _ _ Hp Hne Hs) as (d & Hd & Hin & Hmin).
  exists d. split; [done|]. split; [done|]. split; [done|].
  intros fuel solve_rec k state_copy.
  destruct values as [|x l]; [done|].
  by eapply guess_loop_iteration.
Qed.

Lemma least_constraining_value_order_witness :
  ∃ d, least_constraining_value (SudokuState ex_puzzle) (0, 2) = Ok d ∧
       d ∈ [1; 2; 4]%Z ∧
       candidate_count (SudokuState ex_puzzle) (0, 2) d
       ≤ candidate_count (SudokuState ex_puzzle) (0, 2) 4.
Proof.
  destruct (least_constraining_value_order
              (SudokuState ex_puzzle) (0, 2) [1; 2; 4]%Z)
    as (d & Hd & Hin & Hmin & _).
  - vm_compute. reflexivity.
  - discriminate.
  - repeat constructor; lia.
  - exists d. split; [exact Hd|]. split; [exact Hin|].
    apply Hmin. apply list_elem_of_In. simpl. auto.
Defined.

(** ** An emptied neighbour stays empty *)




Section keep_empty.
Variable X : Position.
Variable fill : Grid → Position → Z → result (Z * Grid).
Hypothesis fill_keeps :
  ∀ st p v r st', get_value_from_pos st X = Lst [] → p ≠ X →
                  fill st p v = Ok (r, st') → get_value_from_pos st' X = Lst [].










End keep_empty.


(** ** Enough fuel: the number of list cells bounds the recursion *)

Definition count_lists (row : list Cell) : nat :=
  length (filter (λ c, is_list c = true) row).

Definition num_empty (st : Grid) : nat := count_lists (concat st).

Definition is_Ok {A} (m : result A) : Prop := ∃ a, m = Ok a.

Lemma count_lists_cons c row :
  count_lists (c :: row) = (if is_list c then 1 else 0) + count_lists row.
Proof.
  unfold count_lists. rewrite filter_cons.
  destruct (is_list c); [rewrite decide_True by done|rewrite decide_False by done];
    simpl; lia.
Qed.

Lemma count_lists_app r1 r2 :
  count_lists (r1 ++ r2) = count_lists r1 + count_lists r2.
Proof. unfold count_lists. by rewrite filter_app, length_app. Qed.

Lemma count_lists_insert row j c c' :
  row !! j = Some c →
  count_lists (<[j:=c']> row) + (if is_list c then 1 else 0)
  = count_lists row + (if is_list c' then 1 else 0).
Proof.
  revert j. induction row as [|x row IH]; intros j; [done|].
  destruct j as [|j]; simpl.
  - intros [= ->]. rewrite !count_lists_cons. lia.
  - intros Hj. rewrite !count_lists_cons. specialize (IH _ Hj). lia.
Qed.

Lemma num_empty_set_cell st p c c' :
  cell_at st p = Some c →
  num_empty (set_cell st p c') + (if is_list c then 1 else 0)
  = num_empty st + (if is_list c' then 1 else 0).
Proof.
  unfold cell_at, set_cell, num_empty. generalize p.1 as i. intros i.
  revert i. induction st as [|row st IH]; intros i; [done|].
  destruct i as [|i]; simpl.
  - intros Hrow. rewrite !count_lists_app.
    pose proof (count_lists_insert _ _ _ c' Hrow). lia.
  - intros Hi. rewrite !count_lists_app. specialize (IH _ Hi).
    change (list_alter (λ row0, <[p.2:=c']> row0) i st)
      with (alter (λ row0, <[p.2:=c']> row0) i st).
    lia.
Qed.

Lemma mutation_num_empty st st' : mutation st st' → num_empty st' ≤ num_empty st.
Proof.
  destruct 1 as [st p l v Hp|st p l v l' Hp Hr].
  - pose proof (num_empty_set_cell _ _ _ (Int v l) Hp). simpl in *. lia.
  - pose proof (num_empty_set_cell _ _ _ (Lst l') Hp). simpl in *. lia.
Qed.

Lemma evolves_num_empty st st' : evolves st st' → num_empty st' ≤ num_empty st.
Proof.
  induction 1 as [|st1 st2 st3 Hm _ IH]; [done|].
  apply mutation_num_empty in Hm. lia.
Qed.

Lemma bind_is_Ok {A B} (m : result A) (k : A → result B) :
  is_Ok m → (∀ a, m = Ok a → is_Ok (k a)) → is_Ok (m ≫= k).
Proof. intros [a ->] Hk. simpl. by apply Hk. Qed.

Section propagation_total.
Variable fill : Grid → Position → Z → result (Z * Grid).
Variable n : nat.
Hypothesis fill_evolves :
  ∀ st p v r st', fill st p v = Ok (r, st') → evolves st st'.
Hypothesis fill_total : ∀ st p v, num_empty st < n → is_Ok (fill st p v).

Lemma analise_values_total position own keys values st :
  num_empty st < n → is_Ok (analise_values fill position own keys values st).
Proof using fill_evolves fill_total.
  revert st. induction values as [|value values IH]; intros st Hn; simpl.
  - by eexists.
  - destruct (filter _ keys) as [|pos [|]]; [by apply IH| |by apply IH].
    destruct (is_list _); [|by apply IH].
    apply bind_is_Ok; [by apply fill_total|].
    intros [o st1] Hf. simpl. apply fill_evolves, evolves_num_empty in Hf.
    destruct (decide _); [by eexists|]. apply IH. lia.
Qed.

Lemma analise_sets_total position own sets st :
  num_empty st < n → is_Ok (analise_sets fill position own sets st).
Proof using fill_evolves fill_total.
  revert st. induction sets as [|keys sets IH]; intros st Hn.
  - by eexists.
  - rewrite analise_sets_cons.
    apply bind_is_Ok; [by apply analise_values_total|].
    intros [r st1] Hf. simpl.
    eapply analise_values_evolves, evolves_num_empty in Hf; [|done].
    destruct r; [by eexists|]. apply IH. lia.
Qed.

Lemma analise_with_total st position :
  num_empty st < n → is_Ok (analise_with fill st position).
Proof using fill_evolves fill_total.
  intros Hn. unfold analise_with.
  destruct (get_value_from_pos st position); [|by eexists].
  destruct (decide _); [by eexists|].
  apply bind_is_Ok; [by apply analise_sets_total|].
  intros [r st1] _. simpl. destruct r; by eexists.
Qed.

Lemma removal_pass_total value keys st reduced :
  is_Ok (removal_pass value keys st reduced).
Proof.
  revert st reduced. induction keys as [|k keys IH]; intros st reduced; simpl.
  - by eexists.
  - destruct (py_in _ _) eqn:Hin.
    + destruct (remove_value_guarded _ _ _ Hin) as [st' ->]. simpl. apply IH.
    + destruct (decide _); [by eexists|]. apply IH.
Qed.

Lemma check_reduced_total reduced st :
  num_empty st < n → is_Ok (check_reduced fill reduced st).
Proof using fill_evolves fill_total.
  revert st. induction reduced as [|rp rest IH]; intros st Hn; simpl.
  - by eexists.
  - apply bind_is_Ok; [by apply analise_with_total|].
    intros [o st1] Ha. simpl.
    eapply analise_with_evolves, evolves_num_empty in Ha; [|done].
    destruct (decide _); [by eexists|].
    destruct (get_value_from_pos st1 rp) as [[|first [|]]|];
      [by eexists| |apply IH; lia..].
    apply bind_is_Ok; [apply fill_total; lia|].
    intros [rr st2] Hf. simpl. apply fill_evolves, evolves_num_empty in Hf.
    destruct (decide _); [by eexists|]. apply IH. lia.
Qed.

Lemma fill_in_square_with_total st position value :
  num_empty st < S n → is_Ok (fill_in_square_with fill st position value).
Proof using fill_evolves fill_total.
  intros Hn. unfold fill_in_square_with.
  destruct (get_value_from_pos st position) as [old|] eqn:Hp; [|by eexists].
  apply bind_is_Ok; [apply removal_pass_total|].
  intros [[ret st1] reduced] Hr. simpl.
  apply removal_pass_evolves, evolves_num_empty in Hr.
  apply get_value_Lst in Hp.
  pose proof (num_empty_set_cell _ _ _ (Int value old) Hp) as Hs. simpl in Hs.
  destruct ret; [by eexists|]. apply check_reduced_total. lia.
Qed.
End propagation_total.

(** With more fuel than list cells, [fill_in_square] returns. *)
Lemma fill_in_square_total fuel st position value :
  num_empty st < fuel → is_Ok (fill_in_square fuel st position value).
Proof.
  revert st position value.
  induction fuel as [|fuel IH]; intros st position value Hn; [lia|].
  simpl. apply (fill_in_square_with_total (fill_in_square fuel) fuel).
  - apply fill_in_square_evolves.
  - exact IH.
  - exact Hn.
Qed.

Lemma analise_empty_value_total fuel st position :
  num_empty st < fuel → is_Ok (analise_empty_value fuel st position).
Proof.
  intros Hn. apply (analise_with_total (fill_in_square fuel) fuel).
  - apply fill_in_square_evolves.
  - intros. by apply fill_in_square_total.
  - exact Hn.
Qed.

(** ** C4: an emptied neighbour makes [fill_in_square] return -1 *)

Lemma filter_keys_fmap st (ks : list Position) :
  (filter (λ kv : Position * Cell, is_list kv.2)
          ((λ k, (k, get_value_from_pos st k)) <$> ks)).*1
  = filter (λ k, is_list (get_value_from_pos st k)) ks.
Proof.
  induction ks as [|k ks IH]; [done|].
  rewrite fmap_cons, !filter_cons. cbn [snd].
  destruct (decide (is_list (get_value_from_pos st k))).
  - rewrite fmap_cons. cbn [fst]. by rewrite IH.
  - exact IH.
Qed.

Lemma get_empty_neighbours_keys st position section X l :
  X ∈ neighbour_keys position section → get_value_from_pos st X = Lst l →
  X ∈ (get_empty_neighbours st position section).*1.
Proof.
  intros Hin HX. unfold get_empty_neighbours, get_neighbors.
  rewrite filter_keys_fmap. apply list_elem_of_filter. split; [|done].
  by rewrite HX.
Qed.




(** * Further properties of the solver *)

(** ** [is_neighbour] and the keys of [get_neighbors] *)

(** The static method [is_neighbour]. *)
Definition is_neighbour (position1 position2 : Position) : bool :=
  if decide (position1 = position2) then false
  else if decide (position1.1 = position2.1) then true
  else if decide (position1.2 = position2.2) then true
  else if decide ((position1.1 `div` 3, position1.2 `div` 3)
                  = (position2.1 `div` 3, position2.2 `div` 3)) then true
  else false.

Lemma neighbour_keys_facts p :
  p ∈ all_positions →
  length (neighbour_keys p all_sections) = 20 ∧
  NoDup (neighbour_keys p all_sections) ∧
  Forall (λ q, q ∈ all_positions ∧ is_neighbour p q = true)
         (neighbour_keys p all_sections) ∧
  Forall (λ q, is_neighbour p q = true → q ∈ neighbour_keys p all_sections)
         all_positions.
Proof. revert p. apply Forall_forall. compute_done. Qed.

Lemma get_neighbors_unfold st p section :
  get_neighbors st p section
  = (λ k, (k, get_value_from_pos st k)) <$> neighbour_keys p section.
Proof. reflexivity. Qed.

Lemma get_neighbors_fst st p section :
  (get_neighbors st p section).*1 = neighbour_keys p section.
Proof.
  unfold get_neighbors. generalize (neighbour_keys p section). intros ks.
  induction ks as [|k ks IH]; [done|].
  rewrite !fmap_cons. cbn [fst]. by rewrite IH.
Qed.

Lemma neighbour_keys_length p :
  p ∈ all_positions → length (neighbour_keys p all_sections) = 20.
Proof. intros Hp. by destruct (neighbour_keys_facts p Hp) as (? & _). Qed.

Lemma neighbour_keys_NoDup p :
  p ∈ all_positions → NoDup (neighbour_keys p all_sections).
Proof. intros Hp. by destruct (neighbour_keys_facts p Hp) as (_ & ? & _). Qed.

Lemma neighbour_keys_is_neighbour p q :
  p ∈ all_positions →
  q ∈ neighbour_keys p all_sections
  ↔ q ∈ all_positions ∧ is_neighbour p q = true.
Proof.
  intros Hp. destruct (neighbour_keys_facts p Hp) as (_ & _ & H3 & H4).
  rewrite Forall_forall in H3. rewrite Forall_forall in H4. split.
  - apply H3.
  - intros [Hq Hn]. by apply H4.
Qed.

(** For a position of the grid, [get_neighbors] with the default section
    has 20 distinct keys: exactly the positions of the grid for which
    [is_neighbour] holds. *)
Theorem get_neighbors_keys st p :
  p ∈ all_positions →
  length (get_neighbors st p all_sections) = 20 ∧
  NoDup (get_neighbors st p all_sections).*1 ∧
  (∀ q, q ∈ (get_neighbors st p all_sections).*1
        ↔ q ∈ all_positions ∧ is_neighbour p q = true) ∧
  (∀ q c, (q, c) ∈ get_neighbors st p all_sections →
          c = get_value_from_pos st q).
Proof.
  intros Hp. split; [|split; [|split]].
  - pose proof (neighbour_keys_length p Hp) as Hlen.
    rewrite get_neighbors_unfold, length_fmap. exact Hlen.
  - rewrite get_neighbors_fst. by apply neighbour_keys_NoDup.
  - intros q. rewrite get_neighbors_fst. by apply neighbour_keys_is_neighbour.
  - intros q c Hqc. rewrite get_neighbors_unfold in Hqc.
    apply list_elem_of_fmap in Hqc as (k & Heq & _).
    by simplify_eq.
Qed.

Lemma get_neighbors_keys_witness :
  length (get_neighbors (SudokuState ex_puzzle) (4, 4) all_sections) = 20.
Proof.
  destruct (get_neighbors_keys (SudokuState ex_puzzle) (4, 4)) as (H & _).
  - apply list_elem_of_In. vm_compute. repeat (first [left; reflexivity | right]).
  - exact H.
Defined.

(** [is_neighbour] is irreflexive and symmetric. *)
Theorem is_neighbour_irrefl_sym p q :
  is_neighbour p p = false ∧ is_neighbour p q = is_neighbour q p.
Proof.
  split.
  - unfold is_neighbour. by rewrite decide_True.
  - unfold is_neighbour.
    repeat (match goal with
            | |- context [decide ?P] => destruct (decide P)
            end; simplify_eq/=; try done; try congruence).
Qed.

(** ** [check]: conflicts between fixed digits *)

Lemma value_filled_spec value (neighbour_set : list (Position * Cell)) :
  value_filled value neighbour_set = true
  ↔ ∃ q o, (q, Int value o) ∈ neighbour_set.
Proof.
  unfold value_filled. rewrite existsb_exists. split.
  - intros ([q c] & Hin & Hc). apply list_elem_of_In in Hin.
    cbn [snd] in Hc. destruct c as [|v o]; [done|].
    apply bool_decide_eq_true in Hc as ->. eauto.
  - intros (q & o & Hin). exists (q, Int value o). split.
    + by apply list_elem_of_In.
    + cbn [snd]. by apply bool_decide_eq_true.
Qed.

Lemma value_filled_neighbours st p value :
  p ∈ all_positions →
  value_filled value (get_neighbors st p all_sections) = true
  ↔ ∃ q o, q ∈ all_positions ∧ is_neighbour p q = true ∧
           get_value_from_pos st q = Int value o.
Proof.
  intros Hp. rewrite value_filled_spec, get_neighbors_unfold. split.
  - intros (q & o & Hin). apply list_elem_of_fmap in Hin as (k & Heq & Hk).
    apply neighbour_keys_is_neighbour in Hk as [Hk1 Hk2]; [|done].
    exists q, o. simplify_eq. done.
  - intros (q & o & Hq & Hn & Hv). exists q, o.
    apply list_elem_of_fmap. exists q. split; [by rewrite Hv|].
    by apply neighbour_keys_is_neighbour.
Qed.

Lemma check_conflict st p q v o o' :
  p ∈ all_positions → q ∈ all_positions → is_neighbour p q = true →
  get_value_from_pos st p = Int v o → get_value_from_pos st q = Int v o' →
  check st = (-1)%Z.
Proof.
  intros Hp Hq Hn Hgp Hgq. unfold check.
  assert (existsb
            (λ position,
               match get_value_from_pos st position with
               | Int value _ =>
                   value_filled value (get_neighbors st position all_sections)
               | Lst _ => false
               end) all_positions = true) as ->; [|done].
  apply existsb_exists. exists p. split; [by apply list_elem_of_In|].
  rewrite Hgp. apply value_filled_neighbours; [done|]. eauto.
Qed.

(** [check] returns -1 exactly when two neighbouring cells of the grid
    hold the same integer, and 0 otherwise. *)
Theorem check_detects_conflict st :
  (check st = (-1)%Z ∨ check st = 0%Z) ∧
  (check st = (-1)%Z
   ↔ ∃ p q v o o', p ∈ all_positions ∧ q ∈ all_positions ∧
                   is_neighbour p q = true ∧
                   get_value_from_pos st p = Int v o ∧
                   get_value_from_pos st q = Int v o').
Proof.
  split.
  { unfold check. destruct (existsb _ all_positions); auto. }
  split.
  - unfold check. destruct (existsb _ all_positions) eqn:He; [|done]. intros _.
    apply existsb_exists in He as (p & Hp & Hv). apply list_elem_of_In in Hp.
    destruct (get_value_from_pos st p) as [|v o] eqn:Hgp; [done|].
    apply value_filled_neighbours in Hv as (q & o' & Hq & Hn & Hgq); [|done].
    by exists p, q, v, o, o'.
  - intros (p & q & v & o & o' & Hp & Hq & Hn & Hgp & Hgq).
    exact (check_conflict st p q v o o' Hp Hq Hn Hgp Hgq).
Qed.



(** ** A complete valid grid *)

(** The 27 units: rows, columns, boxes. *)
Definition all_units : list (list Position) :=
  ((λ r, row_of (r, 0)) <$> seq 0 9)
  ++ ((λ c, col_of (0, c)) <$> seq 0 9)
  ++ ((λ b, box_of (3 * (b `div` 3), 3 * (b `mod` 3))) <$> seq 0 9).

(** The digit a cell holds, if it holds one. *)
Definition cell_digit (st : Grid) (q : Position) : option Z :=
  match get_value_from_pos st q with
  | Int v _ => Some v
  | Lst _ => None
  end.

(** How many cells of [unit] hold the digit [d]. *)
Definition digit_count (st : Grid) (unit : list Position) (d : Z) : nat :=
  length (filter (λ q, cell_digit st q = Some d) unit).

(** Every row, column and box contains each digit 1..9 exactly once. *)
Definition valid_sudoku (st : Grid) : Prop :=
  ∀ unit d, unit ∈ all_units → d ∈ digits → digit_count st unit d = 1.

Lemma all_units_facts :
  Forall (λ unit, length unit = 9 ∧
                  Forall (λ q, q ∈ all_positions) unit ∧
                  Exists (λ position, unit ∈ units_of position) sanity_positions)
         all_units.
Proof. compute_done. Qed.

Lemma sum_indicator (v : option Z) (ds : list Z) :
  NoDup ds →
  sum_list ((λ d, if decide (v = Some d) then 1 else 0) <$> ds) ≤ 1.
Proof.
  induction 1 as [|d ds Hd Hnd IH]; [simpl; lia|].
  rewrite fmap_cons. cbn [sum_list sum_list_with id].
  destruct (decide (v = Some d)) as [->|]; [|lia].
  assert (sum_list ((λ d0, if decide (Some d = Some d0) then 1 else 0) <$> ds) = 0)
    as ->; [|lia].
  clear IH Hnd. induction ds as [|d' ds IH]; [done|].
  apply not_elem_of_cons in Hd as [Hne Hd].
  rewrite fmap_cons. cbn [sum_list sum_list_with id].
  rewrite decide_False by congruence. rewrite (IH Hd). done.
Qed.

Lemma sum_counts (val : Position → option Z) (unit : list Position) (ds : list Z) :
  NoDup ds →
  sum_list ((λ d, length (filter (λ q, val q = Some d) unit)) <$> ds)
  ≤ length unit.
Proof.
  intros Hnd. induction unit as [|q unit IH].
  - assert (∀ ds' : list Z,
              sum_list ((λ d, length (filter (λ q, val q = Some d) [])) <$> ds')
              = 0) as H.
    { induction ds' as [|d ds' IH']; [done|].
      rewrite fmap_cons. cbn [sum_list sum_list_with id]. by rewrite IH'. }
    rewrite H. simpl. lia.
  - pose proof (sum_indicator (val q) ds Hnd) as Hq.
    assert (∀ ds' : list Z,
              sum_list ((λ d, length (filter (λ q0, val q0 = Some d) (q :: unit)))
                          <$> ds')
              = sum_list ((λ d, if decide (val q = Some d) then 1 else 0) <$> ds')
                + sum_list ((λ d, length (filter (λ q0, val q0 = Some d) unit))
                              <$> ds')) as H.
    { induction ds' as [|d ds' IH']; [done|].
      rewrite !fmap_cons. cbn [sum_list sum_list_with id]. rewrite IH'.
      rewrite filter_cons. destruct (decide (val q = Some d)); simpl; lia. }
    rewrite H. cbn [length]. lia.
Qed.

(** With nine cells, "each digit at least once" is "each digit exactly
    once". *)
Lemma digits_exactly_once (val : Position → option Z) (unit : list Position) :
  length unit = 9 →
  (∀ d, d ∈ digits → ∃ q, q ∈ unit ∧ val q = Some d) →
  ∀ d, d ∈ digits → length (filter (λ q, val q = Some d) unit) = 1.
Proof.
  intros Hlen Hall.
  assert (∀ d, d ∈ digits → 1 ≤ length (filter (λ q, val q = Some d) unit)) as Hge.
  { intros d Hd. destruct (Hall d Hd) as (q & Hq & Hv).
    assert (q ∈ filter (λ q, val q = Some d) unit) as Hin
        by by apply list_elem_of_filter.
    destruct (filter _ unit); [by apply elem_of_nil in Hin|simpl; lia]. }
  assert (NoDup digits) as Hnd by compute_done.
  pose proof (sum_counts val unit digits Hnd) as Hsum.
  unfold digits in *. cbn [fmap list_fmap sum_list sum_list_with id] in Hsum.
  assert (∀ d, d ∈ [1; 2; 3; 4; 5; 6; 7; 8; 9]%Z →
               d = 1 ∨ d = 2 ∨ d = 3 ∨ d = 4 ∨ d = 5 ∨ d = 6 ∨ d = 7 ∨ d = 8 ∨ d = 9)%Z
    as Hcases.
  { intros d Hd. apply list_elem_of_In in Hd. simpl in Hd. lia. }
  pose proof (Hge 1%Z ltac:(compute_done)).
  pose proof (Hge 2%Z ltac:(compute_done)).
  pose proof (Hge 3%Z ltac:(compute_done)).
  pose proof (Hge 4%Z ltac:(compute_done)).
  pose proof (Hge 5%Z ltac:(compute_done)).
  pose proof (Hge 6%Z ltac:(compute_done)).
  pose proof (Hge 7%Z ltac:(compute_done)).
  pose proof (Hge 8%Z ltac:(compute_done)).
  pose proof (Hge 9%Z ltac:(compute_done)).
  intros d Hd. destruct (Hcases d Hd) as [->|[->|[->|[->|[->|[->|[->|[->| ->]]]]]]]]; lia.
Qed.

Lemma value_possible_spec value (neighbour_set : list (Position * Cell)) :
  value_possible value neighbour_set = true →
  ∃ q l, (q, Lst l) ∈ neighbour_set.
Proof.
  unfold value_possible. rewrite existsb_exists.
  intros ([q c] & Hin & Hc). apply list_elem_of_In in Hin.
  cbn [snd] in Hc. destruct c as [l|]; [|done]. eauto.
Qed.

Lemma get_empty_states_elem st q l :
  q ∈ all_positions → get_value_from_pos st q = Lst l →
  (q, Lst l) ∈ get_empty_states st.
Proof.
  intros Hq Hg. unfold get_empty_states. apply list_elem_of_filter.
  split; [done|]. apply list_elem_of_fmap. exists q. by rewrite Hg.
Qed.

Lemma get_empty_states_nil st q :
  get_empty_states st = [] → q ∈ all_positions →
  ∃ v o, get_value_from_pos st q = Int v o.
Proof.
  intros He Hq. destruct (get_value_from_pos st q) as [l|v o] eqn:Hg; [|eauto].
  pose proof (get_empty_states_elem st q l Hq Hg) as Hin.
  rewrite He in Hin. by apply elem_of_nil in Hin.
Qed.

(** On a grid without list cells, a passed sanity pass finds every digit
    fixed in every unit of the nine positions. *)
Lemma sanity_pass_filled st position unit d :
  sanity_pass st = true → get_empty_states st = [] →
  position ∈ sanity_positions → unit ∈ units_of position →
  Forall (λ q, q ∈ all_positions) unit → d ∈ digits →
  ∃ q, q ∈ unit ∧ cell_digit st q = Some d.
Proof.
  intros Hs He Hpos Hunit Hall Hd.
  unfold sanity_pass in Hs. rewrite forallb_forall in Hs.
  specialize (Hs position (proj1 (list_elem_of_In _ _) Hpos)).
  rewrite forallb_forall in Hs.
  apply list_elem_of_lookup in Hunit as [i Hi].
  assert (is_Some (unit_sections !! i)) as [section Hsec].
  { apply lookup_lt_is_Some. apply lookup_lt_Some in Hi.
    unfold units_of, unit_sections in *. simpl in *. lia. }
  pose (neighbour_set := (λ k, (k, get_value_from_pos st k))
                           <$> (neighbour_keys position section ++ [position])).
  assert (In neighbour_set (get_sets st position)) as Hin.
  { apply list_elem_of_In. rewrite get_sets_keys.
    apply list_elem_of_fmap. exists section. split; [done|].
    by eapply list_elem_of_lookup_2. }
  specialize (Hs _ Hin). rewrite forallb_forall in Hs.
  specialize (Hs d (proj1 (list_elem_of_In _ _) Hd)).
  rewrite Forall_forall in Hall.
  apply orb_true_iff in Hs as [Hf|Hp].
  - apply value_filled_spec in Hf as (q & o & Hq).
    apply list_elem_of_fmap in Hq as (k & Heq & Hk).
    injection Heq as <- Heq.
    exists q. split; [by eapply sanity_units_keys|].
    unfold cell_digit. by rewrite <- Heq.
  - apply value_possible_spec in Hp as (q & l & Hq).
    apply list_elem_of_fmap in Hq as (k & Heq & Hk).
    injection Heq as <- Heq.
    assert (q ∈ unit) as Hqu by by eapply sanity_units_keys.
    destruct (get_empty_states_nil st q He (Hall q Hqu)) as (v & o & Hg).
    congruence.
Qed.

(** A valid complete grid. *)
Definition ex_solved : list (list Z) :=
  [[5;3;4;6;7;8;9;1;2];
   [6;7;2;1;9;5;3;4;8];
   [1;9;8;3;4;2;5;6;7];
   [8;5;9;7;6;1;4;2;3];
   [4;2;6;8;5;3;7;9;1];
   [7;1;3;9;2;4;8;5;6];
   [9;6;1;5;3;7;2;8;4];
   [2;8;7;4;1;9;6;3;5];
   [3;4;5;2;8;6;1;7;9]]%Z.

(** [narrow] returns 1 only on a complete valid grid: it leaves the grid
    as it is, no cell holds a list, and every row, column and box holds
    each digit 1..9 exactly once. *)
Theorem narrow_one_is_valid fuel st st' :
  narrow fuel st = Ok (1%Z, st') →
  st' = st ∧
  (∀ q, q ∈ all_positions → ∃ v o, get_value_from_pos st q = Int v o) ∧
  valid_sudoku st.
Proof.
  unfold narrow. destruct (sanity_pass st) eqn:Hs; [|done]. cbn [negb].
  destruct (decide (length (get_empty_states st) = 0)) as [He|He].
  - intros [= <-]. apply length_zero_iff_nil in He.
    split; [done|]. split; [intros q; by apply get_empty_states_nil|].
    intros unit d Hunit Hd.
    pose proof all_units_facts as Hfacts. rewrite Forall_forall in Hfacts.
    destruct (Hfacts unit Hunit) as (Hlen & Hall & Hex).
    apply Exists_exists in Hex as (position & Hpos & Hu).
    unfold digit_count.
    apply (digits_exactly_once (cell_digit st) unit Hlen); [|done].
    intros d' Hd'. by eapply sanity_pass_filled.
  - intros [?|?]%narrow_sweep_code; done.
Qed.

Lemma narrow_one_is_valid_witness :
  narrow 1 (SudokuState ex_solved) = Ok (1%Z, SudokuState ex_solved) ∧
  valid_sudoku (SudokuState ex_solved).
Proof.
  assert (narrow 1 (SudokuState ex_solved) = Ok (1%Z, SudokuState ex_solved))
    as H by (vm_compute; reflexivity).
  split; [exact H|].
  destruct (narrow_one_is_valid 1 _ _ H) as (_ & _ & Hv). exact Hv.
Defined.

(** ** What [solve] returns *)

(** No cell of the grid holds a list. *)
Definition complete (st : Grid) : Prop :=
  ∀ q, q ∈ all_positions → ∃ v o, get_value_from_pos st q = Int v o.

Lemma narrow_one_complete fuel st st' :
  narrow fuel st = Ok (1%Z, st') → complete st'.
Proof.
  unfold narrow. destruct (negb _); [done|].
  destruct (decide (length (get_empty_states st) = 0)) as [He|He].
  - intros [= <-]. apply length_zero_iff_nil in He.
    intros q. by apply get_empty_states_nil.
  - intros [?|?]%narrow_sweep_code; done.
Qed.

Lemma is_solved_complete st : is_solved st = 1%Z ↔ complete st.
Proof.
  unfold is_solved, complete.
  destruct (existsb _ all_positions) eqn:He.
  - split; [done|]. intros Hc. exfalso.
    apply existsb_exists in He as (q & Hq & Hl). apply list_elem_of_In in Hq.
    destruct (Hc q Hq) as (v & o & Hg). by rewrite Hg in Hl.
  - split; [|done]. intros _ q Hq.
    destruct (get_value_from_pos st q) as [l|v o] eqn:Hg; [|eauto].
    assert (existsb (λ position, is_list (get_value_from_pos st position))
                    all_positions = true) as Ht; [|congruence].
    apply existsb_exists. exists q. split; [by apply list_elem_of_In|].
    by rewrite Hg.
Qed.

Section solve_complete.
Variable fuel : nat.
Variable solve_rec : Grid → result (Z * Grid).
Hypothesis solve_rec_complete :
  ∀ st st', solve_rec st = Ok (1%Z, st') → complete st'.

Lemma guess_loop_complete k sq state_copy st st' :
  guess_loop fuel solve_rec k sq state_copy st = Ok (Some 1%Z, st') →
  complete st'.
Proof using solve_rec_complete.
  revert state_copy st. induction k as [|k IH]; intros state_copy st;
    cbn [guess_loop]; [done|].
  destruct (get_value_from_pos st sq) as [[|x l]|] eqn:Hp; [done| |done].
  intros H. inv_bind H. rename a into guess.
  inv_bind H. destruct a as [o1 st1]. simpl in H.
  inv_bind H. destruct a as [o2 st2]. simpl in H.
  destruct (decide (o2 = 1)%Z) as [->|].
  { injection H as <-. destruct (decide (o1 = 0)%Z).
    - by eapply solve_rec_complete.
    - injection Ha1 as -> <-.
      by destruct (fill_in_square_code _ _ _ _ _ _ _ Hp Ha0). }
  destruct (decide (o2 = -1)%Z); [|by eapply IH].
  inv_bind H. rename a into st3. inv_bind H. destruct a as [oa st4]. simpl in H.
  destruct (decide (oa = -1)%Z); [done|]. by eapply IH.
Qed.

Lemma solve_with_complete st st' :
  solve_with fuel solve_rec st = Ok (1%Z, st') → complete st'.
Proof using solve_rec_complete.
  unfold solve_with. intros H. inv_bind H. destruct a as [outcome st1].
  simpl in H.
  destruct (decide (outcome ≠ 0%Z)).
  { injection H as -> <-. by eapply narrow_one_complete. }
  destruct (decide (is_solved st1 = 1%Z)) as [Hs|Hs].
  { injection H as <-. by apply is_solved_complete. }
  inv_bind H. rename a into sq. inv_bind H. destruct a as [ret st2]. simpl in H.
  destruct ret as [code|].
  { injection H as -> <-. by eapply guess_loop_complete. }
  destruct (get_value_from_pos st2 sq); [done|].
  by eapply solve_rec_complete.
Qed.
End solve_complete.

Lemma solve_one_complete fuel st st' :
  solve fuel st = Ok (1%Z, st') → complete st'.
Proof.
  revert st st'. induction fuel as [|fuel IH]; intros st st'; simpl; [done|].
  by apply solve_with_complete.
Qed.

(** [solve] returns 1 only with a grid in which no cell holds a list, and
    otherwise returns -1. *)
Theorem solve_outcome fuel st r st' :
  solve fuel st = Ok (r, st') →
  (r = 1%Z ∧ complete st') ∨ r = (-1)%Z.
Proof.
  intros H. destruct (solve_code _ _ _ _ H) as [->| ->]; [left|by right].
  split; [done|]. by eapply solve_one_complete.
Qed.

Lemma solve_outcome_witness :
  ∃ st', solve 100 (SudokuState ex_puzzle) = Ok (1%Z, st') ∧ complete st'.
Proof.
  assert (∃ st', solve 100 (SudokuState ex_puzzle) = Ok (1%Z, st')) as [st' H]
      by (eexists; vm_compute; reflexivity).
  exists st'. split; [exact H|].
  destruct (solve_outcome 100 (SudokuState ex_puzzle) 1 st' H) as [[_ Hc]|Hn].
  - exact Hc.
  - discriminate Hn.
Defined.

Lemma all_positions_bound p : p ∈ all_positions → p.1 < 9 ∧ p.2 < 9.
Proof.
  revert p. apply Forall_forall. compute_done.
Qed.

Lemma cell_at_wf (st : Grid) p :
  wf_grid st → p ∈ all_positions → is_Some (cell_at st p).
Proof.
  intros [Hlen Hrows] [H1 H2]%all_positions_bound. unfold cell_at.
  destruct (lookup_lt_is_Some_2 st p.1 ltac:(lia)) as [row Hrow].
  rewrite Hrow. simpl. apply lookup_lt_is_Some_2.
  rewrite Forall_forall in Hrows.
  rewrite (Hrows row) by by eapply list_elem_of_lookup_2. done.
Qed.

(** The array returned by [sudoku_solver] is either the array of -1 or
    holds an integer in each of its 81 entries: no list and no
    placeholder is left in it. *)
Theorem sudoku_solver_output_dichotomy fuel input out :
  wf_grid input → sudoku_solver fuel input = Ok out →
  out = all_minus_one ∨
  ∀ p, p ∈ all_positions → ∃ v, np_at out p = Some (NpInt v).
Proof.
  intros Hwf. unfold sudoku_solver, get_solved_numpy.
  pose proof (SudokuState_wf _ Hwf) as Hwf0.
  destruct (decide (check (SudokuState input) = -1)%Z) as [Hc|Hc].
  { intros [= <-]. left. by apply get_numpy_proper_state_unsolvable. }
  intros H. inv_bind H. destruct a as [outcome st']. simpl in H.
  injection H as <-.
  assert (wf_grid st') as Hwf'
      by (eapply evolves_wf; [by eapply solve_evolves|done]).
  destruct (solve_code _ _ _ _ Ha) as [->| ->].
  - right. intros p Hp. rewrite get_numpy_proper_state_solved by done.
    rewrite np_at_get_numpy_state.
    destruct (cell_at_wf st' p Hwf' Hp) as [c Hcell].
    destruct (solve_one_complete _ _ _ Ha p Hp) as (v & o & Hg).
    unfold get_value_from_pos in Hg. rewrite Hcell in Hg. simpl in Hg.
    subst c. rewrite Hcell. simpl. eauto.
  - left. by apply get_numpy_proper_state_unsolvable.
Qed.

Lemma sudoku_solver_output_dichotomy_witness :
  ∃ out, sudoku_solver 100 ex_puzzle = Ok out ∧
         (out = all_minus_one ∨
          ∀ p, p ∈ all_positions → ∃ v, np_at out p = Some (NpInt v)).
Proof.
  assert (∃ out, sudoku_solver 100 ex_puzzle = Ok out) as [out H]
      by (eexists; vm_compute; reflexivity).
  exists out. split; [exact H|].
  exact (sudoku_solver_output_dichotomy 100 ex_puzzle out ex_puzzle_wf H).
Defined.

(** ** Exceptions *)


Lemma sort_by_nil {A} (key : A → nat) l : sort_by key l = [] → l = [].
Proof.
  intros Hs. destruct l as [|x l]; [done|].
  assert (x ∈ sort_by key (x :: l)) as Hx by (apply sort_by_elem; left).
  rewrite Hs in Hx. by apply elem_of_nil in Hx.
Qed.





Section solve_no_raise.
Variable fuel : nat.
Variable solve_rec : Grid → result (Z * Grid).
Hypothesis solve_rec_code :
  ∀ st r st', solve_rec st = Ok (r, st') → r = 1%Z ∨ r = (-1)%Z.
Hypothesis solve_rec_no_raise : ∀ st e, solve_rec st ≠ Raise e.


End solve_no_raise.



(** ** Candidate lists only shrink *)

Lemma mutation_shrink st st' p l :
  mutation st st' → cell_at st p = Some (Lst l) →
  (∃ l', cell_at st' p = Some (Lst l') ∧ l' `sublist_of` l) ∨
  (∃ v, cell_at st' p = Some (Int v l)).
Proof.
  intros Hm Hp. destruct Hm as [st q l0 w Hq|st q l0 w l' Hq Hr].
  - destruct (decide (q = p)) as [->|Hne].
    + right. exists w. rewrite cell_at_set_cell_eq by eauto. congruence.
    + left. exists l. by rewrite cell_at_set_cell_ne.
  - destruct (decide (q = p)) as [->|Hne].
    + left. exists l'. rewrite cell_at_set_cell_eq by eauto.
      split; [done|]. apply py_remove_sublist in Hr. congruence.
    + left. exists l. by rewrite cell_at_set_cell_ne.
Qed.

Lemma evolves_shrink st st' p l :
  evolves st st' → cell_at st p = Some (Lst l) →
  (∃ l', cell_at st' p = Some (Lst l') ∧ l' `sublist_of` l) ∨
  (∃ v o, cell_at st' p = Some (Int v o) ∧ o `sublist_of` l).
Proof.
  intros He. revert l. induction He as [st|st1 st2 st3 Hm He IH]; intros l Hp.
  - left. by exists l.
  - destruct (mutation_shrink _ _ _ _ Hm Hp) as [(l1 & Hp1 & Hs1)|(v & Hp1)].
    + destruct (IH _ Hp1) as [(l2 & Hp2 & Hs2)|(v & o & Hp2 & Hs2)].
      * left. exists l2. split; [done|]. by etrans.
      * right. exists v, o. split; [done|]. by etrans.
    + right. exists v, l. split; [|done].
      eapply evolves_Int; [exact He|exact Hp1].
Qed.

Lemma evolves_filled_num_empty st st' p l v o :
  evolves st st' → cell_at st p = Some (Lst l) →
  cell_at st' p = Some (Int v o) → num_empty st' < num_empty st.
Proof.
  intros He. revert l. induction He as [st|st1 st2 st3 Hm He IH]; intros l Hp Hp'.
  - congruence.
  - pose proof (mutation_num_empty _ _ Hm) as Hle.
    destruct (mutation_shrink _ _ _ _ Hm Hp) as [(l1 & Hp1 & _)|(w & Hp1)].
    + specialize (IH _ Hp1 Hp'). lia.
    + apply evolves_num_empty in He.
      assert (num_empty st2 < num_empty st1); [|lia].
      destruct Hm as [st q l0 u Hq|st q l0 u l' Hq Hr].
      * pose proof (num_empty_set_cell _ _ _ (Int u l0) Hq) as Hs.
        simpl in Hs. lia.
      * destruct (decide (q = p)) as [->|Hne].
        -- rewrite cell_at_set_cell_eq in Hp1 by eauto. done.
        -- rewrite cell_at_set_cell_ne in Hp1 by done. congruence.
Qed.

(** [fill_in_square] on a list cell: everything after the assignment. *)
Lemma fill_in_square_from_set fuel st p v l r st' :
  get_value_from_pos st p = Lst l →
  fill_in_square fuel st p v = Ok (r, st') →
  evolves (set_cell st p (Int v l)) st'.
Proof.
  intros Hp. destruct fuel as [|fuel]; simpl; [done|].
  unfold fill_in_square_with. rewrite Hp.
  intros H. inv_bind H. destruct a as [[ret st1] reduced]. simpl in H.
  apply removal_pass_evolves in Ha.
  eapply evolves_trans; [exact Ha|].
  destruct ret.
  - injection H as <- <-. apply evolves_refl.
  - eapply check_reduced_evolves; [|exact H]. apply fill_in_square_evolves.
Qed.

Lemma fill_in_square_sets fuel st p v l r st' :
  get_value_from_pos st p = Lst l →
  fill_in_square fuel st p v = Ok (r, st') →
  cell_at st' p = Some (Int v l).
Proof.
  intros Hp Hf. eapply evolves_Int; [by eapply fill_in_square_from_set|].
  apply get_value_Lst in Hp. rewrite cell_at_set_cell_eq by eauto. done.
Qed.

Lemma fill_in_square_num_empty fuel st p v l r st' :
  get_value_from_pos st p = Lst l →
  fill_in_square fuel st p v = Ok (r, st') →
  num_empty st' < num_empty st.
Proof.
  intros Hp Hf.
  eapply evolves_filled_num_empty.
  - by eapply fill_in_square_evolves.
  - by apply get_value_Lst.
  - by eapply fill_in_square_sets.
Qed.

(** ** Termination *)


Lemma count_lists_le row : count_lists row ≤ length row.
Proof.
  induction row as [|c row IH]; [done|].
  rewrite count_lists_cons. destruct (is_list c); simpl; lia.
Qed.

Lemma num_empty_le (st : Grid) : wf_grid st → num_empty st ≤ 81.
Proof.
  intros [Hlen Hrows]. unfold num_empty.
  etrans; [apply count_lists_le|].
  assert (∀ rows : Grid, Forall (λ row, length row = 9) rows →
                         length (concat rows) = 9 * length rows) as H.
  { induction 1 as [|row rows Hrow _ IH]; [done|].
    simpl. rewrite length_app, IH, Hrow. lia. }
  rewrite (H st Hrows), Hlen. done.
Qed.

Lemma narrow_sweep_total fill n keys st :
  (∀ st p v r st', fill st p v = Ok (r, st') → evolves st st') →
  (∀ st p v, num_empty st < n → is_Ok (fill st p v)) →
  num_empty st < n → is_Ok (narrow_sweep fill keys st).
Proof.
  intros Hev Htot. revert st. induction keys as [|k keys IH]; intros st Hn; simpl.
  - by eexists.
  - destruct (get_value_from_pos st k) as [[|first [|]]|];
      [by eexists| |by apply IH..].
    apply bind_is_Ok; [by apply Htot|].
    intros [o st1] Hf. simpl. apply Hev, evolves_num_empty in Hf.
    destruct (decide (o = -1)%Z); [by eexists|]. apply IH. lia.
Qed.

Lemma narrow_total fuel st : num_empty st < fuel → is_Ok (narrow fuel st).
Proof.
  intros Hn. unfold narrow. destruct (negb _); [by eexists|].
  destruct (decide _); [by eexists|].
  apply (narrow_sweep_total _ fuel); [|by intros; apply fill_in_square_total|done].
  apply fill_in_square_evolves.
Qed.


Section solve_total.
Variable fuel : nat.
Variable solve_rec : Grid → result (Z * Grid).
Hypothesis solve_rec_evolves :
  ∀ st r st', solve_rec st = Ok (r, st') → evolves st st'.
Hypothesis solve_rec_code :
  ∀ st r st', solve_rec st = Ok (r, st') → r = 1%Z ∨ r = (-1)%Z.
Hypothesis solve_rec_total :
  ∀ st, cands_ok st → num_empty st + 11 ≤ fuel → is_Ok (solve_rec st).


End solve_total.


(** With more fuel than the 81 cells of a grid, the propagation functions
    return: the recursion of [fill_in_square] through
    [analise_empty_value] and itself is bounded by the number of cells
    that hold a list. *)
Theorem propagation_terminates fuel st :
  wf_grid st → 81 < fuel →
  (∀ p v, ∃ r st', fill_in_square fuel st p v = Ok (r, st')) ∧
  (∀ p, ∃ r st', analise_empty_value fuel st p = Ok (r, st')) ∧
  (∃ r st', narrow fuel st = Ok (r, st')).
Proof.
  intros Hwf%num_empty_le Hfuel. repeat split.
  - intros p v. destruct (fill_in_square_total fuel st p v) as [[r st'] H]; [lia|].
    eauto.
  - intros p. destruct (analise_empty_value_total fuel st p) as [[r st'] H]; [lia|].
    eauto.
  - destruct (narrow_total fuel st) as [[r st'] H]; [lia|]. eauto.
Qed.

Lemma propagation_terminates_witness :
  ∃ r st', narrow 82 (SudokuState ex_puzzle) = Ok (r, st').
Proof.
  destruct (propagation_terminates 82 (SudokuState ex_puzzle)) as (_ & _ & H).
  - apply SudokuState_wf. exact ex_puzzle_wf.
  - lia.
  - exact H.
Defined.



(** ** What the operations leave in a list cell *)

(** The content of a cell that held the list [l] before: a sublist of
    [l], or a digit together with the list it replaced. *)
Definition shrunk (l : list Z) (c : Cell) : Prop :=
  match c with
  | Lst l' => l' `sublist_of` l
  | Int _ o => o `sublist_of` l
  end.

Lemma evolves_shrunk st st' p l :
  evolves st st' → cell_at st p = Some (Lst l) →
  ∃ c, cell_at st' p = Some c ∧ shrunk l c.
Proof.
  intros He Hp.
  destruct (evolves_shrink _ _ _ _ He Hp) as [(l' & H & Hs)|(v & o & H & Hs)].
  - by exists (Lst l').
  - by exists (Int v o).
Qed.

(** No operation adds a digit to a candidate list or reorders it: a cell
    that holds a list before [fill_in_square], [analise_empty_value],
    [narrow] or [solve] holds afterwards a sublist of it, or a digit.
    For [solve] this includes the restores of the snapshot after failed
    guesses. *)
Theorem candidates_only_shrink st p l :
  cell_at st p = Some (Lst l) →
  (∀ n q d r st', fill_in_square n st q d = Ok (r, st') →
                  ∃ c, cell_at st' p = Some c ∧ shrunk l c) ∧
  (∀ n q r st', analise_empty_value n st q = Ok (r, st') →
                ∃ c, cell_at st' p = Some c ∧ shrunk l c) ∧
  (∀ n r st', narrow n st = Ok (r, st') →
              ∃ c, cell_at st' p = Some c ∧ shrunk l c) ∧
  (∀ n r st', solve n st = Ok (r, st') →
              ∃ c, cell_at st' p = Some c ∧ shrunk l c).
Proof.
  intros Hp. repeat split; intros.
  - eapply evolves_shrunk; [by eapply fill_in_square_evolves|done].
  - eapply evolves_shrunk; [by eapply analise_empty_value_evolves|done].
  - eapply evolves_shrunk; [by eapply narrow_evolves|done].
  - eapply evolves_shrunk; [by eapply solve_evolves|done].
Qed.

Lemma candidates_only_shrink_witness :
  ∃ st', solve 100 (SudokuState ex_puzzle) = Ok (1%Z, st') ∧
         ∃ c, cell_at st' (0, 2) = Some c ∧ shrunk [1; 2; 4]%Z c.
Proof.
  assert (∃ st', solve 100 (SudokuState ex_puzzle) = Ok (1%Z, st')) as [st' H]
      by (eexists; vm_compute; reflexivity).
  exists st'. split; [exact H|].
  destruct (candidates_only_shrink (SudokuState ex_puzzle) (0, 2) [1; 2; 4]%Z)
    as (_ & _ & _ & Hs).
  - vm_compute. reflexivity.
  - exact (Hs 100 1%Z st' H).
Defined.

Lemma py_remove_NoDup v l l' : NoDup l → py_remove v l = Some l' → v ∉ l'.
Proof.
  intros Hnd. revert l'. induction Hnd as [|x l Hx Hnd IH]; intros l'; simpl; [done|].
  destruct (decide (x = v)) as [->|Hne]; [by intros [= <-]|].
  destruct (py_remove v l) as [l1|]; [|done]. simpl. intros [= <-].
  apply not_elem_of_cons. split; [done|]. by apply IH.
Qed.

Lemma mutation_None st st' p :
  mutation st st' → cell_at st p = None → cell_at st' p = None.
Proof.
  intros Hm Hp. destruct Hm as [st q l w Hq|st q l w l' Hq Hr];
    (destruct (decide (q = p)) as [->|Hne];
     [congruence|by rewrite cell_at_set_cell_ne]).
Qed.

Lemma evolves_None st st' p :
  evolves st st' → cell_at st p = None → cell_at st' p = None.
Proof. induction 1; eauto using mutation_None. Qed.

(** A list found in a cell afterwards is a sublist of the list that was
    there before. *)
Lemma evolves_Lst_inv st st' p l' :
  evolves st st' → cell_at st' p = Some (Lst l') →
  ∃ l, cell_at st p = Some (Lst l) ∧ l' `sublist_of` l.
Proof.
  intros He Hp'. destruct (cell_at st p) as [[l|v o]|] eqn:Hp.
  - destruct (evolves_shrink _ _ _ _ He Hp) as [(l1 & H & Hs)|(v & o & H & _)];
      [|congruence].
    exists l. split; [done|]. congruence.
  - pose proof (evolves_Int _ _ _ _ _ He Hp). congruence.
  - pose proof (evolves_None _ _ _ He Hp). congruence.
Qed.

(** [value] is not a candidate of the cell at [k]. *)
Definition not_candidate (value : Z) (st : Grid) (k : Position) : Prop :=
  ∀ l, cell_at st k = Some (Lst l) → value ∉ l.

Lemma evolves_not_candidate value st st' k :
  evolves st st' → not_candidate value st k → not_candidate value st' k.
Proof.
  intros He Hn l' Hl'.
  destruct (evolves_Lst_inv _ _ _ _ He Hl') as (l & Hl & Hs).
  intros Hin. apply (Hn l Hl). by eapply elem_of_sublist.
Qed.

Lemma removal_pass_not_candidate value keys st reduced st' reduced' :
  cands_ok st →
  removal_pass value keys st reduced = Ok (None, st', reduced') →
  ∀ k, k ∈ keys → not_candidate value st' k.
Proof.
  revert st reduced. induction keys as [|k0 keys IH]; intros st reduced Hok;
    cbn [removal_pass].
  - intros _ k Hk. by apply elem_of_nil in Hk.
  - destruct (py_in value (listobj (get_value_from_pos st k0))) eqn:Hin.
    + intros H. inv_bind H. rename a into st1.
      pose proof (remove_value_evolves _ _ _ _ Ha) as Hev1.
      pose proof (removal_pass_evolves _ _ _ _ _ _ _ H) as Hev2.
      intros k [->|Hk]%elem_of_cons.
      * eapply evolves_not_candidate; [exact Hev2|].
        unfold remove_value in Ha.
        destruct (get_value_from_pos st k0) as [l|v o] eqn:Hg.
        -- destruct (py_remove value l) as [l1|] eqn:Hr; [|done].
           injection Ha as <-. apply get_value_Lst in Hg.
           intros l2 Hl2. rewrite cell_at_set_cell_eq in Hl2 by eauto.
           injection Hl2 as <-.
           eapply py_remove_NoDup; [|exact Hr].
           apply StronglySorted_lt_NoDup. by apply (Hok k0 l Hg).
        -- injection Ha as <-. intros l2 Hl2.
           unfold get_value_from_pos in Hg. rewrite Hl2 in Hg. done.
      * eapply IH; [|exact H|exact Hk]. by eapply evolves_cands_ok.
    + destruct (decide (listobj (get_value_from_pos st k0) = [])); [done|].
      intros H k [->|Hk]%elem_of_cons.
      * eapply evolves_not_candidate;
          [by eapply removal_pass_evolves|].
        intros l Hl. unfold get_value_from_pos in Hin. rewrite Hl in Hin.
        simpl in Hin. intros Hel%py_in_true. congruence.
      * by eapply IH.
Qed.

(** [fill_in_square] on a cell that holds a list: the cell holds the
    value afterwards, one list cell fewer is left, and when the call
    returns 0 the value is a candidate of no neighbour any more. *)
Theorem fill_in_square_post fuel st p v l r st' :
  cands_ok st → p ∈ all_positions →
  get_value_from_pos st p = Lst l →
  fill_in_square fuel st p v = Ok (r, st') →
  cell_at st' p = Some (Int v l) ∧
  num_empty st' < num_empty st ∧
  (r = 0%Z →
   ∀ q, q ∈ all_positions → is_neighbour p q = true → not_candidate v st' q).
Proof.
  intros Hok Hpos Hp Hf. split; [by eapply fill_in_square_sets|].
  split; [by eapply fill_in_square_num_empty|].
  intros -> q Hq Hn.
  assert (q ∈ neighbour_keys p all_sections) as Hkey
      by by apply neighbour_keys_is_neighbour.
  destruct fuel as [|fuel]; [done|]. cbn [fill_in_square] in Hf.
  unfold fill_in_square_with in Hf. rewrite Hp in Hf.
  inv_bind Hf. destruct a as [[ret st1] reduced]. cbv beta iota in Hf.
  pose proof Hp as Hcell. apply get_value_Lst in Hcell.
  assert (cands_ok (set_cell st p (Int v l))) as Hok1.
  { eapply evolves_cands_ok; [|exact Hok]. by apply evolves_fill. }
  destruct ret as [code|].
  { injection Hf as -> <-.
    by destruct (removal_pass_code _ _ _ _ _ _ _ Ha) as [?|?]. }
  assert (evolves st1 st') as Hev
      by (eapply check_reduced_evolves; [apply fill_in_square_evolves|exact Hf]).
  eapply evolves_not_candidate; [exact Hev|].
  destruct (get_value_from_pos st q) as [lq|vq oq] eqn:Hgq.
  - eapply removal_pass_not_candidate; [exact Hok1|exact Ha|].
    by eapply get_empty_neighbours_keys.
  - intros l1 Hl1.
    assert (evolves st st1) as Hev0.
    { eapply evolves_trans; [by apply evolves_fill|].
      by eapply removal_pass_evolves. }
    destruct (evolves_Lst_inv _ _ _ _ Hev0 Hl1) as (l0 & Hl0 & _).
    unfold get_value_from_pos in Hgq. rewrite Hl0 in Hgq. done.
Qed.

Lemma fill_in_square_post_witness :
  ∃ r st', fill_in_square 82 (SudokuState ex_puzzle) (0, 2) 1 = Ok (r, st') ∧
           cell_at st' (0, 2) = Some (Int 1 [1; 2; 4]%Z).
Proof.
  assert (∃ r st', fill_in_square 82 (SudokuState ex_puzzle) (0, 2) 1
                   = Ok (r, st')) as (r & st' & H)
      by (do 2 eexists; vm_compute; reflexivity).
  exists r, st'. split; [exact H|].
  destruct (fill_in_square_post 82 (SudokuState ex_puzzle) (0, 2) 1
                                [1; 2; 4]%Z r st') as (Hc & _).
  - apply SudokuState_cands_ok.
  - apply list_elem_of_In. vm_compute. repeat (first [left; reflexivity | right]).
  - vm_compute. reflexivity.
  - exact H.
  - exact Hc.
Defined.

(** ** The cell [solve] guesses at *)

(** The minimum-remaining-values choice of [solve]: the chosen position is
    the first one, in row-major order, among the list cells with the
    fewest candidates; the expression fails (with [IndexError]) exactly
    when no cell holds a list. *)
Theorem square_to_edit_fewest_candidates st :
  (square_to_edit_of st = Raise IndexError ↔ get_empty_states st = []) ∧
  (∀ sq, square_to_edit_of st = Ok sq →
     ∃ l before after,
       get_value_from_pos st sq = Lst l ∧
       get_empty_states st = before ++ (sq, Lst l) :: after ∧
       (∀ kv, kv ∈ before → length l < length (listobj kv.2)) ∧
       (∀ kv, kv ∈ after → length l ≤ length (listobj kv.2))).
Proof.
  unfold square_to_edit_of. split.
  - destruct (sort_by _ (get_empty_states st)) as [|kv t] eqn:Hs.
    + split; [|done]. intros _. by eapply sort_by_nil.
    + split; [done|]. intros He. rewrite He in Hs. done.
  - intros sq.
    destruct (sort_by _ (get_empty_states st)) as [|kv t] eqn:Hs; [done|].
    intros [= <-].
    destruct (sort_by_head _ _ _ _ Hs) as (before & after & Heq & Hb & Ha).
    assert (kv ∈ get_empty_states st) as Hin.
    { rewrite Heq. apply elem_of_app. right. left. }
    unfold get_empty_states in Hin.
    apply list_elem_of_filter in Hin as [Hl Hin].
    apply list_elem_of_fmap in Hin as (k & -> & _). cbn [fst snd] in *.
    destruct (get_value_from_pos st k) as [l|] eqn:Hg; [|done].
    exists l, before, after.
    split; [done|]. split; [done|]. split.
    + intros kv Hkv. exact (Hb kv Hkv).
    + intros kv Hkv. exact (Ha kv Hkv).
Qed.

Lemma square_to_edit_fewest_candidates_witness :
  square_to_edit_of (SudokuState ex_solved) = Raise IndexError ∧
  ∃ l, get_value_from_pos (SudokuState ex_puzzle) (4, 4) = Lst l.
Proof.
  split.
  - destruct (square_to_edit_fewest_candidates (SudokuState ex_solved)) as [H _].
    apply H. vm_compute. reflexivity.
  - destruct (square_to_edit_fewest_candidates (SudokuState ex_puzzle)) as [_ H].
    destruct (H (4, 4)) as (l & _ & _ & Hl & _).
    + vm_compute. reflexivity.
    + exists l. exact Hl.
Defined.

(** ** The candidates [setup] computes *)

Lemma py_remove_elem_iff v l l' d :
  NoDup l → py_remove v l = Some l' → d ∈ l' ↔ d ∈ l ∧ d ≠ v.
Proof.
  intros Hnd. revert l'. induction Hnd as [|x l Hx Hnd IH]; intros l'; simpl; [done|].
  destruct (decide (x = v)) as [->|Hne].
  - intros [= <-]. rewrite elem_of_cons. split.
    + intros Hd. split; [by right|]. by intros ->.
    + intros [[?|?] ?]; done.
  - destruct (py_remove v l) as [l1|]; [|done]. simpl. intros [= <-].
    rewrite !elem_of_cons, (IH l1 eq_refl). split.
    + intros [->|[? ?]]; [split; [by left|done]|split; [by right|done]].
    + intros [[->|?] ?]; [by left|by right].
Qed.

(** The cell at [k] holds the positive integer [d]. *)
Definition blocks (st : Grid) (k : Position) (d : Z) : Prop :=
  (0 < d)%Z ∧ ∃ o, get_value_from_pos st k = Int d o.

Lemma setup_fold_elem st (ks : list Position) (acc : list Z) d :
  NoDup acc →
  d ∈ foldl (λ possible_values (kv : Position * Cell),
               match kv.2 with
               | Int v _ =>
                   if bool_decide (0 < v)%Z && py_in v possible_values
                   then default possible_values (py_remove v possible_values)
                   else possible_values
               | Lst _ => possible_values
               end)
            acc ((λ k, (k, get_value_from_pos st k)) <$> ks)
  ↔ d ∈ acc ∧ ∀ k, k ∈ ks → ¬ blocks st k d.
Proof.
  revert acc. induction ks as [|k ks IH]; intros acc Hnd.
  - cbn [fmap list_fmap foldl]. split; [|by intros [? _]].
    intros Hd. split; [done|]. intros k Hk. by apply elem_of_nil in Hk.
  - rewrite fmap_cons. cbn [foldl snd].
    destruct (get_value_from_pos st k) as [l|v o] eqn:Hg.
    + rewrite (IH acc Hnd). split; intros [Hd Hks]; (split; [done|]).
      * intros k' [->|Hk']%elem_of_cons; [|by apply Hks].
        intros [_ [o Ho]]. congruence.
      * intros k' Hk'. apply Hks. by right.
    + destruct (bool_decide (0 < v)%Z && py_in v acc) eqn:Hb.
      * apply andb_true_iff in Hb as [Hpos%bool_decide_eq_true Hin%py_in_true].
        destruct (py_remove_Some _ _ Hin) as [acc' Hr]. rewrite Hr. cbn [default].
        assert (NoDup acc') as Hnd'.
        { eapply sublist_NoDup; [exact Hnd|by eapply py_remove_sublist]. }
        rewrite (IH acc' Hnd'), (py_remove_elem_iff v acc acc' d Hnd Hr).
        split.
        -- intros [[Hd Hne] Hks]. split; [done|].
           intros k' [->|Hk']%elem_of_cons; [|by apply Hks].
           intros [_ [o' Ho']]. congruence.
        -- intros [Hd Hks]. split; [split; [done|]|].
           ++ intros ->. apply (Hks k); [left|]. split; [done|eauto].
           ++ intros k' Hk'. apply Hks. by right.
      * rewrite (IH acc Hnd). split; intros [Hd Hks]; (split; [done|]).
        -- intros k' [->|Hk']%elem_of_cons; [|by apply Hks].
           intros [Hpos [o' Ho']]. assert (v = d) as -> by congruence.
           apply andb_false_iff in Hb as [Hb|Hb].
           ++ apply bool_decide_eq_false in Hb. done.
           ++ apply not_true_iff_false in Hb. apply Hb. by apply py_in_true.
        -- intros k' Hk'. apply Hks. by right.
Qed.

Lemma setup_cell_elem st p d :
  d ∈ setup_cell st p
  ↔ d ∈ digits ∧ ∀ k, k ∈ neighbour_keys p all_sections → ¬ blocks st k d.
Proof.
  unfold setup_cell. rewrite get_neighbors_unfold.
  apply setup_fold_elem. compute_done.
Qed.

Lemma input_at_wf (input : list (list Z)) p :
  wf_grid input → p ∈ all_positions → is_Some (input_at input p).
Proof.
  intros [Hlen Hrows] [H1 H2]%all_positions_bound. unfold input_at.
  destruct (lookup_lt_is_Some_2 input p.1 ltac:(lia)) as [row Hrow].
  rewrite Hrow. simpl. apply lookup_lt_is_Some_2.
  rewrite Forall_forall in Hrows.
  rewrite (Hrows row) by by eapply list_elem_of_lookup_2. done.
Qed.

Section setup_candidates.
Variable input : list (list Z).

(** During [setup] a cell holds its input, or a list where the input
    was 0. *)
Definition agrees (st : Grid) : Prop :=
  ∀ q, q ∈ all_positions →
       ∃ v, input_at input q = Some v ∧
            (cell_at st q = Some (Int v []) ∨
             (v = 0%Z ∧ ∃ l, cell_at st q = Some (Lst l))).

Definition setup_step (st : Grid) (p : Position) : Grid :=
  if is_zero (get_value_from_pos st p)
  then set_cell st p (Lst (setup_cell st p))
  else st.

Lemma setup_step_other st p q :
  p ≠ q → cell_at (setup_step st p) q = cell_at st q.
Proof.
  intros Hne. unfold setup_step. destruct (is_zero _); [|done].
  by rewrite cell_at_set_cell_ne.
Qed.

Lemma setup_step_agrees st p :
  p ∈ all_positions → agrees st → agrees (setup_step st p).
Proof.
  intros Hp Hag q Hq. destruct (Hag q Hq) as (v & Hv & Hc).
  exists v. split; [done|].
  destruct (decide (p = q)) as [->|Hne]; [|by rewrite setup_step_other].
  unfold setup_step. destruct (is_zero (get_value_from_pos st q)) eqn:Hz; [|done].
  right. apply is_zero_true in Hz as [o Ho].
  assert (is_Some (cell_at st q)) as Hsome by (destruct Hc as [->|(_ & l & ->)]; eauto).
  rewrite cell_at_set_cell_eq by done. split; [|eauto].
  destruct Hc as [Hc|(? & _)]; [|done].
  unfold get_value_from_pos in Ho. rewrite Hc in Ho. simpl in Ho. congruence.
Qed.

Lemma setup_loop_agrees ps st :
  Forall (λ p, p ∈ all_positions) ps → agrees st →
  agrees (foldl setup_step st ps).
Proof.
  intros Hps. revert st. induction Hps as [|p ps Hp _ IH]; intros st Hag; [done|].
  cbn [foldl]. apply IH. by apply setup_step_agrees.
Qed.

Lemma setup_loop_other ps st q :
  q ∉ ps → cell_at (foldl setup_step st ps) q = cell_at st q.
Proof.
  revert st. induction ps as [|p ps IH]; intros st Hq; [done|].
  apply not_elem_of_cons in Hq as [Hne Hq].
  cbn [foldl]. rewrite IH by done. by apply setup_step_other.
Qed.

Lemma blocks_agrees st k d :
  agrees st → k ∈ all_positions →
  blocks st k d ↔ (0 < d)%Z ∧ input_at input k = Some d.
Proof.
  intros Hag Hk. destruct (Hag k Hk) as (v & Hv & Hc). unfold blocks.
  split; intros [Hpos H]; (split; [done|]).
  - destruct H as [o Ho]. unfold get_value_from_pos in Ho.
    destruct Hc as [Hc|(-> & l & Hc)]; rewrite Hc in Ho; simpl in Ho; congruence.
  - assert (v = d) as -> by congruence.
    destruct Hc as [Hc|(-> & _)]; [|lia].
    exists []. unfold get_value_from_pos. by rewrite Hc.
Qed.

(** A zero of the input becomes, when the loop reaches it, the list of
    the digits that no neighbour holds in the input. *)
Lemma setup_loop_candidates ps st p :
  NoDup ps → Forall (λ p, p ∈ all_positions) ps → agrees st →
  p ∈ ps → cell_at st p = Some (Int 0 []) →
  ∃ l, cell_at (foldl setup_step st ps) p = Some (Lst l) ∧
       ∀ d, d ∈ l ↔ d ∈ digits ∧
                    ∀ q, q ∈ all_positions → is_neighbour p q = true →
                         input_at input q ≠ Some d.
Proof.
  intros Hnd. revert st.
  induction Hnd as [|p0 ps Hp0 Hnd IH]; intros st Hps Hag Hp Hc.
  { by apply elem_of_nil in Hp. }
  apply Forall_cons in Hps as [Hp0in Hps].
  cbn [foldl]. destruct (decide (p0 = p)) as [->|Hne].
  - rewrite setup_loop_other by done.
    assert (is_zero (get_value_from_pos st p) = true) as Hz.
    { unfold get_value_from_pos. rewrite Hc. reflexivity. }
    unfold setup_step. rewrite Hz.
    rewrite cell_at_set_cell_eq by eauto.
    exists (setup_cell st p). split; [done|].
    intros d. rewrite setup_cell_elem. split; intros [Hd Hb]; (split; [done|]).
    + intros q Hq Hn Hi. apply (Hb q).
      * by apply neighbour_keys_is_neighbour.
      * apply blocks_agrees; [done..|]. split; [|done].
        apply list_elem_of_In in Hd. unfold digits in Hd. simpl in Hd. lia.
    + intros k Hk. apply neighbour_keys_is_neighbour in Hk as [Hk Hn]; [|done].
      intros [_ Hi]%blocks_agrees; [|done..]. by apply (Hb k).
  - apply elem_of_cons in Hp as [->|Hp]; [done|].
    apply IH; [done|by apply setup_step_agrees|done|].
    by rewrite setup_step_other.
Qed.
End setup_candidates.

Lemma all_positions_NoDup : NoDup all_positions.
Proof. compute_done. Qed.

(** The constructor turns every 0 of the input into the ascending list
    of the digits 1..9 that no cell of the same row, column or box holds
    in the input. *)
Theorem setup_candidates_from_input input p :
  wf_grid input → p ∈ all_positions → input_at input p = Some 0%Z →
  ∃ l, cell_at (SudokuState input) p = Some (Lst l) ∧
       ascending_digits l ∧
       ∀ d, d ∈ l ↔ d ∈ digits ∧
                    ∀ q, q ∈ all_positions → is_neighbour p q = true →
                         input_at input q ≠ Some d.
Proof.
  intros Hwf Hp Hin.
  destruct (setup_loop_candidates input all_positions
              (fmap (M:=list) (λ num, Int num []) <$> input) p)
    as (l & Hl & Hchar).
  - apply all_positions_NoDup.
  - by apply Forall_forall.
  - intros q Hq. destruct (input_at_wf input q Hwf Hq) as [v Hv].
    exists v. split; [done|]. left. by rewrite cell_at_init, Hv.
  - done.
  - by rewrite cell_at_init, Hin.
  - exists l. split; [exact Hl|]. split; [|exact Hchar].
    by apply (SudokuState_cands_ok input p l).
Qed.

Lemma setup_candidates_from_input_witness :
  ∃ l, cell_at (SudokuState ex_puzzle) (0, 2) = Some (Lst l) ∧ 4%Z ∈ l.
Proof.
  destruct (setup_candidates_from_input ex_puzzle (0, 2)) as (l & Hl & _ & Hc).
  - exact ex_puzzle_wf.
  - apply list_elem_of_In. vm_compute. repeat (first [left; reflexivity | right]).
  - reflexivity.
  - exists l. split; [exact Hl|].
    assert (cell_at (SudokuState ex_puzzle) (0, 2) = Some (Lst [1; 2; 4]%Z)) as H
        by (vm_compute; reflexivity).
    assert (l = [1; 2; 4]%Z) as -> by congruence.
    apply list_elem_of_In. simpl. tauto.
Defined.

(** ** Return codes *)

Lemma analise_values_code fill position own keys values st ret st' :
  analise_values fill position own keys values st = Ok (ret, st') →
  ret = None ∨ ret = Some (-1)%Z.
Proof.
  revert st. induction values as [|value values IH]; intros st; simpl.
  - intros [= <- <-]. by left.
  - destruct (filter _ keys) as [|pos [|]]; [by apply IH| |by apply IH].
    destruct (is_list _); [|by apply IH].
    intros H. inv_bind H. destruct a as [o st1]. simpl in H.
    destruct (decide (o = -1)%Z); [injection H as <- <-; by right|]. by eapply IH.
Qed.

Lemma analise_sets_code fill position own sets st ret st' :
  analise_sets fill position own sets st = Ok (ret, st') →
  ret = None ∨ ret = Some (-1)%Z.
Proof.
  revert st. induction sets as [|keys sets IH]; intros st.
  - intros [= <- <-]. by left.
  - rewrite analise_sets_cons. intros H. inv_bind H.
    destruct a as [r st1]. simpl in H.
    apply analise_values_code in Ha as [->| ->].
    + by eapply IH.
    + injection H as <- <-. by right.
Qed.

Lemma analise_with_code fill st position r st' :
  analise_with fill st position = Ok (r, st') → r = 0%Z ∨ r = (-1)%Z.
Proof.
  unfold analise_with.
  destruct (get_value_from_pos st position); [|intros [= <- <-]; by left].
  destruct (decide _); [intros [= <- <-]; by right|].
  intros H. inv_bind H. destruct a as [ret st1]. simpl in H.
  apply analise_sets_code in Ha as [->| ->]; injection H as <- <-; auto.
Qed.

(** The codes the propagation functions return.  [fill_in_square]
    returns -2 exactly on a cell that holds a digit, and then leaves the
    grid unchanged; on a list cell it returns 0 or -1.
    [analise_empty_value] returns 0 or -1, and [narrow] returns 0, 1
    or -1. *)
Theorem propagation_return_codes fuel st :
  (∀ p v r st', fill_in_square fuel st p v = Ok (r, st') →
     (is_list (get_value_from_pos st p) = false ∧ r = (-2)%Z ∧ st' = st) ∨
     (is_list (get_value_from_pos st p) = true ∧ (r = 0%Z ∨ r = (-1)%Z))) ∧
  (∀ p r st', analise_empty_value fuel st p = Ok (r, st') →
     r = 0%Z ∨ r = (-1)%Z) ∧
  (∀ r st', narrow fuel st = Ok (r, st') → r = 0%Z ∨ r = 1%Z ∨ r = (-1)%Z).
Proof.
  split; [|split].
  - intros p v r st' H.
    destruct (get_value_from_pos st p) as [l|w o] eqn:Hp.
    + right. split; [done|]. by eapply fill_in_square_code.
    + left. split; [done|]. destruct fuel as [|fuel]; [done|].
      cbn [fill_in_square] in H. unfold fill_in_square_with in H.
      rewrite Hp in H. by injection H as <- <-.
  - intros p r st'. apply analise_with_code.
  - intros r st'. apply narrow_code.
Qed.

(** ** Complete grids *)

(** The units of the nine positions are among the 27 units, and their
    cells are keys of the dictionaries [get_sets] builds. *)
Lemma sanity_units_cover :
  Forall (λ position,
    Forall (λ su : Section3 * list Position,
              su.2 ∈ all_units ∧
              Forall (λ q, q ∈ neighbour_keys position su.1 ++ [position]) su.2)
           (zip unit_sections (units_of position)))
    sanity_positions.
Proof. compute_done. Qed.

Lemma digit_count_one st unit d :
  digit_count st unit d = 1 →
  ∃ q o, q ∈ unit ∧ get_value_from_pos st q = Int d o.
Proof.
  unfold digit_count. intros H.
  destruct (filter (λ q, cell_digit st q = Some d) unit) as [|q t] eqn:Hf; [done|].
  assert (q ∈ filter (λ q, cell_digit st q = Some d) unit) as Hq
      by (rewrite Hf; left).
  apply list_elem_of_filter in Hq as [Hc Hq]. unfold cell_digit in Hc.
  destruct (get_value_from_pos st q) as [|v o] eqn:Hg; [done|].
  injection Hc as ->. eauto.
Qed.

Lemma valid_sanity_pass st : valid_sudoku st → sanity_pass st = true.
Proof.
  intros Hv. unfold sanity_pass. apply forallb_forall. intros position Hpos.
  apply list_elem_of_In in Hpos.
  pose proof sanity_units_cover as Hcov. rewrite Forall_forall in Hcov.
  specialize (Hcov position Hpos). rewrite Forall_forall in Hcov.
  apply forallb_forall. intros neighbour_set Hns.
  apply list_elem_of_In in Hns. rewrite get_sets_keys in Hns.
  apply list_elem_of_fmap in Hns as (section & -> & Hsec).
  assert (∃ unit, (section, unit) ∈ zip unit_sections (units_of position))
    as [unit Hzip].
  { unfold unit_sections, units_of in *. cbn [zip zip_with].
    apply list_elem_of_In in Hsec. simpl in Hsec.
    destruct Hsec as [<-|[<-|[<-|[]]]]; eexists; apply list_elem_of_In; simpl; eauto. }
  destruct (Hcov _ Hzip) as [Hall Hkeys]. cbn [fst snd] in *.
  rewrite Forall_forall in Hkeys.
  apply forallb_forall. intros d Hd. apply list_elem_of_In in Hd.
  apply orb_true_iff. left. apply value_filled_spec.
  destruct (digit_count_one st unit d (Hv unit d Hall Hd)) as (q & o & Hq & Hg).
  exists q, o. apply list_elem_of_fmap. exists q. split; [by rewrite Hg|].
  by apply Hkeys.
Qed.

Lemma complete_no_empty_states st : complete st → get_empty_states st = [].
Proof.
  intros Hc. unfold get_empty_states.
  destruct (filter _ _) as [|kv t] eqn:Hf; [done|].
  assert (kv ∈ filter (λ kv : Position * Cell, is_list kv.2)
                      ((λ k, (k, get_value_from_pos st k)) <$> all_positions))
    as Hin by (rewrite Hf; left).
  apply list_elem_of_filter in Hin as [Hl Hin].
  apply list_elem_of_fmap in Hin as (k & -> & Hk). cbn [snd] in Hl.
  destruct (Hc k Hk) as (v & o & Hg). by rewrite Hg in Hl.
Qed.

(** On a grid without list cells the solver is a validity check:
    [narrow], and with it [solve], returns 1 when every row, column and
    box holds each digit exactly once, and -1 otherwise, and leaves the
    grid as it is. *)
Theorem complete_grid_checked fuel st :
  complete st →
  (narrow fuel st = Ok (1%Z, st) ∨ narrow fuel st = Ok ((-1)%Z, st)) ∧
  (narrow fuel st = Ok (1%Z, st) ↔ valid_sudoku st) ∧
  solve (S fuel) st = narrow (S fuel) st.
Proof.
  intros Hc. pose proof (complete_no_empty_states _ Hc) as He.
  assert (∀ n, narrow n st = Ok (1%Z, st) ∨ narrow n st = Ok ((-1)%Z, st)) as Hn.
  { intros n. unfold narrow. destruct (sanity_pass st); cbn [negb]; [|by right].
    rewrite He. rewrite decide_True by done. by left. }
  split; [apply Hn|]. split.
  - split.
    + unfold narrow. destruct (sanity_pass st) eqn:Hs; [|done]. intros _.
      intros unit d Hunit Hd.
      pose proof all_units_facts as Hfacts. rewrite Forall_forall in Hfacts.
      destruct (Hfacts unit Hunit) as (Hlen & Hall & Hex).
      apply Exists_exists in Hex as (position & Hpos & Hu).
      apply (digits_exactly_once (cell_digit st) unit Hlen); [|done].
      intros d' Hd'. by eapply sanity_pass_filled.
    + intros Hv. unfold narrow. rewrite (valid_sanity_pass _ Hv). cbn [negb].
      rewrite He. by rewrite decide_True by done.
  - cbn [solve]. unfold solve_with.
    destruct (Hn (S fuel)) as [-> | ->]; cbn [mbind result_bind]; cbv beta iota;
      by rewrite decide_True by done.
Qed.

Lemma complete_grid_checked_witness :
  valid_sudoku (SudokuState ex_solved) ∧
  solve 1 (SudokuState ex_solved) = narrow 1 (SudokuState ex_solved).
Proof.
  destruct (complete_grid_checked 0 (SudokuState ex_solved)) as (_ & [Hv _] & Hs).
  - apply is_solved_complete. vm_compute. reflexivity.
  - split; [|exact Hs]. apply Hv. vm_compute. reflexivity.
Defined.

(** ** [remove_value] on a list that holds the value *)

Lemma py_remove_length v l l' :
  py_remove v l = Some l' → length l = S (length l').
Proof.
  revert l'. induction l as [|x l IH]; intros l'; simpl; [done|].
  destruct (decide (x = v)); [by intros [= <-]|].
  destruct (py_remove v l) as [l1|]; [|done]. simpl. intros [= <-].
  simpl. by rewrite (IH l1 eq_refl).
Qed.

(** On a cell whose list contains the value, [remove_value] takes out
    one occurrence and nothing else: the list is one shorter, keeps the
    order of the remaining digits, no longer contains the value when it
    had no duplicates, and every other cell is untouched. *)
Theorem remove_value_present st p l d :
  get_value_from_pos st p = Lst l → d ∈ l →
  ∃ l', remove_value st p d = Ok (set_cell st p (Lst l')) ∧
        cell_at (set_cell st p (Lst l')) p = Some (Lst l') ∧
        length l = S (length l') ∧
        l' `sublist_of` l ∧
        (NoDup l → ∀ x, x ∈ l' ↔ x ∈ l ∧ x ≠ d) ∧
        (∀ q, q ≠ p → cell_at (set_cell st p (Lst l')) q = cell_at st q).
Proof.
  intros Hp Hd. destruct (py_remove_Some _ _ Hd) as [l' Hr].
  exists l'.
  split; [unfold remove_value; by rewrite Hp, Hr|].
  split; [apply get_value_Lst in Hp; by rewrite cell_at_set_cell_eq by eauto|].
  split; [by eapply py_remove_length|].
  split; [by eapply py_remove_sublist|].
  split.
  - intros Hnd x. exact (py_remove_elem_iff d l l' x Hnd Hr).
  - intros q Hq. by rewrite cell_at_set_cell_ne.
Qed.

Lemma remove_value_present_witness :
  ∃ l', remove_value (SudokuState ex_puzzle) (0, 2) 2
        = Ok (set_cell (SudokuState ex_puzzle) (0, 2) (Lst l')) ∧
        3 = S (length l').
Proof.
  destruct (remove_value_present (SudokuState ex_puzzle) (0, 2) [1; 2; 4]%Z 2)
    as (l' & Hr & _ & Hlen & _).
  - vm_compute. reflexivity.
  - apply list_elem_of_In. simpl. tauto.
  - exists l'. split; [exact Hr|exact Hlen].
Defined.

(** ** Propagation is not conflict-free *)

(** A grid without two equal digits in any row, column or box, and
    without a solution. *)
Definition ex_stale : list (list Z) :=
  [[0;8;0;5;0;0;0;0;0];
   [0;4;0;0;0;6;0;5;2];
   [9;5;2;0;0;7;0;8;0];
   [0;0;0;0;0;0;0;4;0];
   [0;0;9;0;0;0;8;2;0];
   [0;0;0;2;8;0;0;7;0];
   [0;0;0;0;7;0;6;3;0];
   [0;0;8;0;0;4;7;9;0];
   [7;3;4;0;6;5;0;0;0]]%Z.

(** [narrow] can return 0 on a grid in which it has itself put the same
    digit into two cells of one row: [analise_empty_value] counts the
    candidates of its own position in a copy taken when it was called,
    and fills the position with a digit that a neighbour has received in
    the meantime.  [check] accepts the grid before the call and rejects
    it afterwards; [narrow] does not call [check]. *)
Theorem narrow_can_create_conflict :
  ∃ input st',
    wf_grid input ∧
    check (SudokuState input) = 0%Z ∧
    narrow 82 (SudokuState input) = Ok (0%Z, st') ∧
    check st' = (-1)%Z ∧
    ∃ v o o', get_value_from_pos st' (3, 2) = Int v o ∧
              get_value_from_pos st' (3, 8) = Int v o'.
Proof.
  exists ex_stale.
  destruct (narrow 82 (SudokuState ex_stale)) as [[r st']| |] eqn:Hn;
    [|by vm_compute in Hn..].
  exists st'. split; [by apply wf_grid_dec_true|].
  split; [vm_compute; reflexivity|].
  vm_compute in Hn. injection Hn as <- <-.
  split; [reflexivity|]. split; [vm_compute; reflexivity|].
  do 3 eexists. split; vm_compute; reflexivity.
Qed.
